(** * PID stage of PISA: [get_pid_maps] (pisa/pid/PID.py)

    The stage takes the reconstructed event-rate templates of the four
    interaction categories and sorts them into tracks and cascades: every
    template is multiplied by the category's track and cascade weights and
    the products are summed into two fresh maps.

    The development follows the source top-down: numbers and numpy arrays,
    the dictionaries the stage reads and builds, the function itself (once
    over values, once over a store of array objects), and then the
    properties. *)

From Stdlib Require Import ZArith PrimFloat.
From stdpp Require Import gmap strings list.

Set Warnings "-inexact-float".

(** ** Numbers

    The maps hold numpy floats.  The embedding is generic in the number
    type: the code only uses a zero ([np.zeros_like]), [+] ([+=]) and [*]. *)

Class Numeric (num : Type) := {
  zero : num;
  add : num → num → num;
  mul : num → num → num;
}.

Infix "⊕" := add (at level 50, left associativity).
Infix "⊗" := mul (at level 40, left associativity).

(** The laws of exact arithmetic (a commutative semiring without a named
    unit).  Rounded binary64 arithmetic satisfies only some of them; the
    algebraic properties below are stated for number types that satisfy
    all of them. *)
Class ExactArith (num : Type) `{Numeric num} : Prop := {
  add_zero_l : ∀ x : num, zero ⊕ x = x;
  add_comm : ∀ x y : num, x ⊕ y = y ⊕ x;
  add_assoc : ∀ x y z : num, x ⊕ (y ⊕ z) = (x ⊕ y) ⊕ z;
  mul_comm : ∀ x y : num, x ⊗ y = y ⊗ x;
  mul_assoc : ∀ x y z : num, x ⊗ (y ⊗ z) = (x ⊗ y) ⊗ z;
  mul_zero_l : ∀ x : num, zero ⊗ x = zero;
  mul_add_distr_l : ∀ x y z : num, x ⊗ (y ⊕ z) = (x ⊗ y) ⊕ (x ⊗ z);
}.

#[export] Instance Z_numeric : Numeric Z :=
  {| zero := 0%Z; add := Z.add; mul := Z.mul |}.

#[export] Instance float_numeric : Numeric float :=
  {| zero := 0%float; add := PrimFloat.add; mul := PrimFloat.mul |}.

(** ** Exceptions *)

Inductive error :=
  | KeyError (key : string)   (* a dictionary has no such key *)
  | ValueError                (* numpy: operands could not be broadcast together *)
  | TypeError                 (* an entry is not of the kind the code indexes *)
  | BinningMismatch.          (* raised by the binning helper *)

Inductive result (A : Type) :=
  | Ok (a : A)
  | Err (e : error).
Arguments Ok {A} a.
Arguments Err {A} e.

#[export] Instance result_ret : MRet result := λ A a, Ok a.
#[export] Instance result_bind : MBind result := λ A B f r,
  match r with Ok a => f a | Err e => Err e end.
#[export] Instance result_fmap : FMap result := λ A B f r,
  match r with Ok a => Ok (f a) | Err e => Err e end.

Definition is_Ok {A} (r : result A) : Prop := ∃ a, r = Ok a.

(** [d[k]] on a dictionary with string keys. *)
Definition getitem {V} (d : gmap string V) (k : string) : result V :=
  match d !! k with
  | Some v => Ok v
  | None => Err (KeyError k)
  end.

(** ** numpy arrays

    A two-dimensional array is the list of its rows.  An array without rows
    has shape (0, 0).  A one-dimensional weight of length m is the one-row
    array, as numpy's broadcasting reads it against a two-dimensional map. *)

Abbreviation ndarray num := (list (list num)).

Section Arrays.
Context {num : Type} `{Numeric num}.

Definition nrows (a : ndarray num) : nat := length a.
Definition ncols (a : ndarray num) : nat :=
  match a with [] => 0 | row :: _ => length row end.
Definition shape (a : ndarray num) : nat * nat := (nrows a, ncols a).

(** [a[i, j]], when the index is in range. *)
Definition cell (a : ndarray num) (i j : nat) : option num :=
  row ← a !! i; row !! j.

(** numpy's broadcasting rule for one axis: equal lengths, or one of
    them is 1. *)
Definition broadcast_dim (n m : nat) : option nat :=
  if decide (n = m) then Some n
  else if decide (n = 1) then Some m
  else if decide (m = 1) then Some n
  else None.

Definition broadcast_shapes (s t : nat * nat) : option (nat * nat) :=
  r ← broadcast_dim s.1 t.1; c ← broadcast_dim s.2 t.2; Some (r, c).

(** The element a broadcast operation reads at (i, j): an axis of length
    1 is read at index 0. *)
Definition bget (a : ndarray num) (i j : nat) : num :=
  let i' := if decide (nrows a = 1) then 0 else i in
  let j' := if decide (ncols a = 1) then 0 else j in
  default zero (cell a i' j').

Definition tabulate2 (r c : nat) (f : nat → nat → num) : ndarray num :=
  (λ i, f i <$> seq 0 c) <$> seq 0 r.

(** [np.zeros_like(a)] *)
Definition zeros_like (a : ndarray num) : ndarray num :=
  (λ row : list num, (λ _, zero) <$> row) <$> a.

(** [a * b] on two arrays: a new array of the broadcast shape. *)
Definition ndarray_mul (a b : ndarray num) : result (ndarray num) :=
  match broadcast_shapes (shape a) (shape b) with
  | Some (r, c) => Ok (tabulate2 r c (λ i j, bget a i j ⊗ bget b i j))
  | None => Err ValueError
  end.

(** [out += x]: [x] has to broadcast to the shape of [out]. *)
Definition iadd (out x : ndarray num) : result (ndarray num) :=
  if decide (broadcast_shapes (shape out) (shape x) = Some (shape out))
  then Ok (tabulate2 (nrows out) (ncols out) (λ i j, bget out i j ⊕ bget x i j))
  else Err ValueError.


(** Rectangular arrays of a given shape. *)
Definition is_array (a : ndarray num) : Prop :=
  Forall (λ row, length row = ncols a) a.
Definition has_shape (r c : nat) (a : ndarray num) : Prop :=
  is_array a ∧ shape a = (r, c).

Definition all_zero (a : ndarray num) : Prop :=
  Forall (Forall (λ x, x = zero)) a.
End Arrays.

(** ** The dictionaries

    A template is the dictionary [{'ebins': .., 'czbins': .., 'map': ..}].
    [reco_events] maps the category names to templates and ['params'] to the
    parameters of the previous stages.  The types are generic in what stands
    for an array ([arr]): the array itself where only values matter, a
    reference into the store of array objects where identity matters. *)

Section DataModel.
Variables (num pvalue arr : Type).

Record template := {
  ebins : list num;
  czbins : list num;
  map_ : arr;                  (* the entry 'map' *)
}.

Inductive entry :=
  | Template (t : template)
  | Params (p : gmap string pvalue).

(** A PID weight: a number or an array. *)
Inductive weight :=
  | Scalar (x : num)
  | Array (a : arr).

(** Modelled from the spec: class PIDService (pisa/pid/PIDService.py) is not
    in src.  It is the spec's PIDTable: for each category a dictionary with
    the weights 'trck' and 'cscd', returned by [get_maps], and the table's
    own parameter set. *)
Record PIDService := {
  get_maps : gmap string (gmap string weight);
  pid_params : gmap string pvalue;
}.

(** The returned dictionary [{'trck': .., 'cscd': .., 'params': ..}]. *)
Record reco_events_pid := {
  trck : template;
  cscd : template;
  params : gmap string pvalue;
}.
End DataModel.

Arguments ebins {num arr} t.
Arguments czbins {num arr} t.
Arguments map_ {num arr} t.
Arguments Build_template {num arr} _ _ _.
Arguments Template {num pvalue arr} t.
Arguments Params {num pvalue arr} p.
Arguments Scalar {num arr} x.
Arguments Array {num arr} a.
Arguments get_maps {num pvalue arr} p.
Arguments pid_params {num pvalue arr} p.
Arguments Build_PIDService {num pvalue arr} _ _.
Arguments trck {num pvalue arr} r.
Arguments cscd {num pvalue arr} r.
Arguments params {num pvalue arr} r.
Arguments Build_reco_events_pid {num pvalue arr} _ _ _.

Definition flavours : list string :=
  ["nue_cc"; "numu_cc"; "nutau_cc"; "nuall_nc"].

(** ** Reading the dictionaries *)

Section Lookups.
Context {num pvalue arr : Type}.

(** [reco_events[flav]['map']] *)
Definition reco_map (reco_events : gmap string (entry num pvalue arr))
    (flav : string) : result arr :=
  e ← getitem reco_events flav;
  match e with
  | Template t => Ok (map_ t)
  | Params p => Err (KeyError "map")
  end.

(** [reco_events['params']].  The value goes to [add_params], which takes a
    dictionary of parameters; a template under ['params'] is outside the
    input type of the call and ends the embedding with an error. *)
Definition reco_params (reco_events : gmap string (entry num pvalue arr))
    : result (gmap string pvalue) :=
  e ← getitem reco_events "params";
  match e with
  | Params p => Ok p
  | Template _ => Err TypeError
  end.

(** [pid_dict[flav][sig]] *)
Definition pid_weight (pid_dict : gmap string (gmap string (weight num arr)))
    (flav sig : string) : result (weight num arr) :=
  d ← getitem pid_dict flav; getitem d sig.

(** [report_params] only logs. *)
Definition report_params (p : gmap string pvalue) (units : list string) : unit := tt.
End Lookups.

(** ** The stage, over values *)

Section Splitter.
Context {num pvalue : Type} `{Numeric num}.

(** The helpers of pisa.utils that the function calls are not in src; they
    are parameters of the embedding.  [get_params()] takes no argument and
    reports the parameters of the running call, so it is given the call's
    arguments. *)
Variable get_binning :
  gmap string (entry num pvalue (ndarray num)) → result (list num * list num).
Variable get_params :
  gmap string (entry num pvalue (ndarray num)) →
  PIDService num pvalue (ndarray num) →
  gmap string pvalue → gmap string pvalue.
Variable add_params :
  gmap string pvalue → gmap string pvalue → result (gmap string pvalue).

(** [event_map * w] *)
Definition mul_weight (event_map : ndarray num) (w : weight num (ndarray num))
    : result (ndarray num) :=
  match w with
  | Scalar x => Ok (tabulate2 (nrows event_map) (ncols event_map)
                      (λ i j, bget event_map i j ⊗ x))
  | Array b => ndarray_mul event_map b
  end.

(** The body of [for flav in flavours], lines 60 to 66; [acc] holds the two
    maps under construction. *)
Definition pid_step (reco_events : gmap string (entry num pvalue (ndarray num)))
    (pid_dict : gmap string (gmap string (weight num (ndarray num))))
    (acc : ndarray num * ndarray num) (flav : string)
    : result (ndarray num * ndarray num) :=
  event_map ← reco_map reco_events flav;
  wt ← pid_weight pid_dict flav "trck";
  to_trck_map ← mul_weight event_map wt;
  wc ← pid_weight pid_dict flav "cscd";
  to_cscd_map ← mul_weight event_map wc;
  trck_map ← iadd acc.1 to_trck_map;
  cscd_map ← iadd acc.2 to_cscd_map;
  Ok (trck_map, cscd_map).

Fixpoint pid_loop (reco_events : gmap string (entry num pvalue (ndarray num)))
    (pid_dict : gmap string (gmap string (weight num (ndarray num))))
    (flavs : list string) (acc : ndarray num * ndarray num)
    : result (ndarray num * ndarray num) :=
  match flavs with
  | [] => Ok acc
  | flav :: rest =>
      acc' ← pid_step reco_events pid_dict acc flav;
      pid_loop reco_events pid_dict rest acc'
  end.

Definition get_pid_maps (reco_events : gmap string (entry num pvalue (ndarray num)))
    (pid_service : PIDService num pvalue (ndarray num))
    (kwargs : gmap string pvalue)
    : result (reco_events_pid num pvalue (ndarray num)) :=
  let params := get_params reco_events pid_service kwargs in
  let _ := report_params params [] in
  bins ← get_binning reco_events;
  nue ← reco_map reco_events "nue_cc";
  let trck_map := zeros_like nue in
  nue' ← reco_map reco_events "nue_cc";
  let cscd_map := zeros_like nue' in
  reco_params ← reco_params reco_events;
  params' ← add_params params reco_params;
  let pid_dict := get_maps pid_service in
  maps ← pid_loop reco_events pid_dict flavours (trck_map, cscd_map);
  Ok {| trck := {| map_ := maps.1; czbins := bins.2; ebins := bins.1 |};
        cscd := {| map_ := maps.2; czbins := bins.2; ebins := bins.1 |};
        params := params' |}.
End Splitter.

(** ** The stage, over a store of array objects

    numpy arrays are objects: [np.zeros_like] and [*] make new ones and
    [+=] writes into an existing one.  Here the dictionaries hold references
    (indices into the store) and the function threads the store.  A
    reference outside the store does not occur in Python; it reads as the
    empty array. *)

Section Store.
Context {num pvalue : Type} `{Numeric num}.

Variable get_binning :
  gmap string (entry num pvalue (ndarray num)) → result (list num * list num).
Variable get_params :
  gmap string (entry num pvalue (ndarray num)) →
  PIDService num pvalue (ndarray num) →
  gmap string pvalue → gmap string pvalue.
Variable add_params :
  gmap string pvalue → gmap string pvalue → result (gmap string pvalue).

Definition deref (σ : list (ndarray num)) (l : nat) : ndarray num :=
  default [] (σ !! l).

(** What a dictionary of references denotes in a store. *)
Definition snapshot_template (σ : list (ndarray num)) (t : template num nat)
    : template num (ndarray num) :=
  {| ebins := ebins t; czbins := czbins t; map_ := deref σ (map_ t) |}.

Definition snapshot_entry (σ : list (ndarray num)) (e : entry num pvalue nat)
    : entry num pvalue (ndarray num) :=
  match e with
  | Template t => Template (snapshot_template σ t)
  | Params p => Params p
  end.

Definition snapshot_weight (σ : list (ndarray num)) (w : weight num nat)
    : weight num (ndarray num) :=
  match w with
  | Scalar x => Scalar x
  | Array l => Array (deref σ l)
  end.

Definition snapshot_events (σ : list (ndarray num))
    (reco_events : gmap string (entry num pvalue nat))
    : gmap string (entry num pvalue (ndarray num)) :=
  snapshot_entry σ <$> reco_events.

Definition snapshot_service (σ : list (ndarray num))
    (pid_service : PIDService num pvalue nat)
    : PIDService num pvalue (ndarray num) :=
  {| get_maps := (λ d : gmap string (weight num nat), snapshot_weight σ <$> d)
                   <$> get_maps pid_service;
     pid_params := pid_params pid_service |}.

Definition snapshot_result (σ : list (ndarray num))
    (out : reco_events_pid num pvalue nat)
    : reco_events_pid num pvalue (ndarray num) :=
  {| trck := snapshot_template σ (trck out);
     cscd := snapshot_template σ (cscd out);
     params := params out |}.

(** Computations that read and write the store and may raise. *)
Definition st (A : Type) : Type :=
  list (ndarray num) → result A * list (ndarray num).

#[local] Instance st_ret : MRet st := λ A a σ, (Ok a, σ).
#[local] Instance st_bind : MBind st := λ A B f m σ,
  match m σ with
  | (Ok a, σ') => f a σ'
  | (Err e, σ') => (Err e, σ')
  end.

Definition lift {A} (r : result A) : st A := λ σ, (r, σ).
Definition load (l : nat) : st (ndarray num) := λ σ, (Ok (deref σ l), σ).
Definition alloc (a : ndarray num) : st nat := λ σ, (Ok (length σ), σ ++ [a]).
Definition write (l : nat) (a : ndarray num) : st unit :=
  λ σ, (Ok tt, <[l := a]> σ).
Definition view {A} (f : list (ndarray num) → A) : st A := λ σ, (Ok (f σ), σ).

(** [np.zeros_like(a)]: a new object *)
Definition zeros_like_st (l : nat) : st nat :=
  a ← load l; alloc (zeros_like a).

(** [event_map * w]: a new object *)
Definition mul_weight_st (l : nat) (w : weight num nat) : st nat :=
  a ← load l;
  w' ← view (λ σ, snapshot_weight σ w);
  r ← lift (mul_weight a w');
  alloc r.

(** [out += x]: writes the object [out] *)
Definition iadd_st (out x : nat) : st unit :=
  a ← load out;
  b ← load x;
  r ← lift (iadd a b);
  write out r.

Definition pid_step_st (reco_events : gmap string (entry num pvalue nat))
    (pid_dict : gmap string (gmap string (weight num nat)))
    (acc : nat * nat) (flav : string) : st unit :=
  event_map ← lift (reco_map reco_events flav);
  wt ← lift (pid_weight pid_dict flav "trck");
  to_trck_map ← mul_weight_st event_map wt;
  wc ← lift (pid_weight pid_dict flav "cscd");
  to_cscd_map ← mul_weight_st event_map wc;
  iadd_st acc.1 to_trck_map;;
  iadd_st acc.2 to_cscd_map.

Fixpoint pid_loop_st (reco_events : gmap string (entry num pvalue nat))
    (pid_dict : gmap string (gmap string (weight num nat)))
    (flavs : list string) (acc : nat * nat) : st unit :=
  match flavs with
  | [] => mret tt
  | flav :: rest =>
      pid_step_st reco_events pid_dict acc flav;;
      pid_loop_st reco_events pid_dict rest acc
  end.

Definition get_pid_maps_st (reco_events : gmap string (entry num pvalue nat))
    (pid_service : PIDService num pvalue nat) (kwargs : gmap string pvalue)
    : st (reco_events_pid num pvalue nat) :=
  args ← view (λ σ, (snapshot_events σ reco_events,
                     snapshot_service σ pid_service));
  let params := get_params args.1 args.2 kwargs in
  let _ := report_params params [] in
  bins ← lift (get_binning args.1);
  nue ← lift (reco_map reco_events "nue_cc");
  trck_map ← zeros_like_st nue;
  nue' ← lift (reco_map reco_events "nue_cc");
  cscd_map ← zeros_like_st nue';
  reco_params ← lift (reco_params reco_events);
  params' ← lift (add_params params reco_params);
  let pid_dict := get_maps pid_service in
  pid_loop_st reco_events pid_dict flavours (trck_map, cscd_map);;
  mret {| trck := {| map_ := trck_map; czbins := bins.2; ebins := bins.1 |};
          cscd := {| map_ := cscd_map; czbins := bins.2; ebins := bins.1 |};
          params := params' |}.
End Store.

(** ** The helpers, as the spec describes them *)

Module Spec.
Section Helpers.
Context {num pvalue : Type}.

(** Whether two bin edges are equal within the tolerance. *)
Variable close : num → num → bool.

Definition edges_match (l1 l2 : list num) : bool :=
  bool_decide (length l1 = length l2)
  && forallb (λ p, close p.1 p.2) (zip l1 l2).

Definition same_binning (b1 b2 : list num * list num) : bool :=
  edges_match b1.1 b2.1 && edges_match b1.2 b2.2.

(** The binnings of the categories the input holds, in the order of
    [flavours]. *)
Definition category_binnings
    (reco_events : gmap string (entry num pvalue (ndarray num)))
    : list (list num * list num) :=
  omap (λ flav, match reco_events !! flav with
                | Some (Template t) => Some (ebins t, czbins t)
                | _ => None
                end) flavours.

(** Modelled from the spec: get_binning (pisa/utils/utils.py) is not in src.
    Section 4.1: "Determine the common Binning from the input maps (take any
    one category's binning as reference after confirming equality across
    all)", and "Fails with BinningMismatch if any category's map has a
    different Binning than the others"; two binnings are equal "if both edge
    sequences match element-wise within a small numeric tolerance".  An
    input without any category is a MissingCategory. *)
Definition get_binning
    (reco_events : gmap string (entry num pvalue (ndarray num)))
    : result (list num * list num) :=
  let found := category_binnings reco_events in
  match found with
  | [] => Err (KeyError "nue_cc")
  | reference :: _ =>
      if forallb (λ b1, forallb (same_binning b1) found) found
      then Ok reference
      else Err BinningMismatch
  end.

(** Modelled from the spec: get_params (pisa/utils/proc.py) is not in src.
    The parameters the stage adds are "the PID table's own parameter set". *)
Definition get_params
    (reco_events : gmap string (entry num pvalue (ndarray num)))
    (pid_service : PIDService num pvalue (ndarray num))
    (kwargs : gmap string pvalue) : gmap string pvalue :=
  pid_params pid_service.

(** Modelled from the spec: add_params (pisa/utils/proc.py) is not in src.
    Section 4.1, step 4: "start from the input flavor_map_set parameters,
    then overlay with the pid_table's parameters (later keys overwrite
    earlier on collision)".  The call is [add_params(params,
    reco_events['params'])], so the first argument is the overlay. *)
Definition add_params (setA setB : gmap string pvalue)
    : result (gmap string pvalue) :=
  Ok (setA ∪ setB).
End Helpers.
End Spec.

(** The stage with the helpers of the spec. *)
Definition split {num pvalue : Type} `{Numeric num} (close : num → num → bool) :=
  get_pid_maps (pvalue := pvalue)
    (Spec.get_binning close) Spec.get_params Spec.add_params.

(** ** Inputs *)

(** What an input has to provide for the call to return: the binning helper
    and the parameter helpers return, the four categories hold maps of one
    shape (r, c), ['params'] is there, and the PID table has both weights
    for every category, each a number or an array that broadcasts to
    (r, c). *)
Section Validity.
Context {num pvalue : Type} `{Numeric num}.

Definition fits (r c : nat) (w : weight num (ndarray num)) : Prop :=
  match w with
  | Scalar _ => True
  | Array b => broadcast_shapes (r, c) (shape b) = Some (r, c)
  end.

Record valid_input
    (get_binning :
       gmap string (entry num pvalue (ndarray num)) → result (list num * list num))
    (get_params :
       gmap string (entry num pvalue (ndarray num)) →
       PIDService num pvalue (ndarray num) →
       gmap string pvalue → gmap string pvalue)
    (add_params :
       gmap string pvalue → gmap string pvalue → result (gmap string pvalue))
    (r c : nat)
    (reco_events : gmap string (entry num pvalue (ndarray num)))
    (pid_service : PIDService num pvalue (ndarray num))
    (kwargs : gmap string pvalue) : Prop := {
  valid_binning : is_Ok (get_binning reco_events);
  valid_maps : ∀ flav, flav ∈ flavours →
    ∃ t, reco_events !! flav = Some (Template t) ∧ has_shape r c (map_ t);
  valid_params : ∃ p, reco_events !! "params" = Some (Params p) ∧
    is_Ok (add_params (get_params reco_events pid_service kwargs) p);
  valid_weights : ∀ flav, flav ∈ flavours →
    ∃ d wt wc, get_maps pid_service !! flav = Some d ∧
      d !! "trck" = Some wt ∧ d !! "cscd" = Some wc ∧
      fits r c wt ∧ fits r c wc;
}.

(** The numbers a cell of the result is made of: the event rate of a
    category at (i, j) and its weights there. *)
Definition event_rate (reco_events : gmap string (entry num pvalue (ndarray num)))
    (flav : string) (i j : nat) : num :=
  match reco_events !! flav with
  | Some (Template t) => bget (map_ t) i j
  | _ => zero
  end.

Definition weight_at (w : weight num (ndarray num)) (i j : nat) : num :=
  match w with
  | Scalar x => x
  | Array b => bget b i j
  end.

Definition pid_at (pid_dict : gmap string (gmap string (weight num (ndarray num))))
    (flav sig : string) (i j : nat) : num :=
  match pid_dict !! flav ≫= (.!! sig) with
  | Some w => weight_at w i j
  | None => zero
  end.

(** The sum the loop accumulates in one cell, category by category. *)
Definition accumulated
    (reco_events : gmap string (entry num pvalue (ndarray num)))
    (pid_dict : gmap string (gmap string (weight num (ndarray num))))
    (sig : string) (flavs : list string) (start : num) (i j : nat) : num :=
  foldl (λ s flav, s ⊕ event_rate reco_events flav i j ⊗ pid_at pid_dict flav sig i j)
        start flavs.



End Validity.

(** The scenario of the spec: four categories with a 2x2 map of ones on
    ebins = [1, 10, 100] and czbins = [-1, 0, 1]; every category has the
    weights 0.7 (track) and 0.3 (cascade).  The numbers are binary64. *)
Definition scenario_template : template float (ndarray float) :=
  {| ebins := [1; 10; 100]%float; czbins := [-1; 0; 1]%float;
     map_ := [[1; 1]; [1; 1]]%float |}.

Definition scenario_events {pvalue} (p : gmap string pvalue)
    : gmap string (entry float pvalue (ndarray float)) :=
  <["params" := Params p]>
    (list_to_map ((λ flav, (flav, Template scenario_template)) <$> flavours)).

Definition scenario_service {pvalue} (p : gmap string pvalue)
    : PIDService float pvalue (ndarray float) :=
  {| get_maps :=
       list_to_map
         ((λ flav, (flav, {[ "trck" := Scalar 0.7%float;
                             "cscd" := Scalar 0.3%float ]})) <$> flavours);
     pid_params := p |}.

(** A small input over the integers: 2x2 maps, a scalar, a row and a full
    array among the weights. *)
Definition demo_template (a : ndarray Z) : template Z (ndarray Z) :=
  {| ebins := [1; 10; 100]%Z; czbins := [-1; 0; 1]%Z; map_ := a |}.

Definition demo_events : gmap string (entry Z Z (ndarray Z)) :=
  {[ "nue_cc" := Template (demo_template [[1; 2]; [3; 4]]%Z);
     "numu_cc" := Template (demo_template [[5; 6]; [7; 8]]%Z);
     "nutau_cc" := Template (demo_template [[0; 1]; [1; 0]]%Z);
     "nuall_nc" := Template (demo_template [[2; 2]; [2; 2]]%Z);
     "params" := Params {[ "a" := 1%Z ]} ]}.

Definition demo_service : PIDService Z Z (ndarray Z) :=
  {| get_maps :=
       {[ "nue_cc" := {[ "trck" := Scalar 1%Z; "cscd" := Scalar 9%Z ]};
          "numu_cc" := {[ "trck" := Array [[7; 8]]%Z; "cscd" := Array [[3; 2]]%Z ]};
          "nutau_cc" := {[ "trck" := Array [[1; 2]; [3; 4]]%Z;
                           "cscd" := Array [[4]; [5]]%Z ]};
          "nuall_nc" := {[ "trck" := Scalar 0%Z; "cscd" := Scalar 10%Z ]} ]};
     pid_params := {[ "a" := 2%Z; "b" := 3%Z ]} |}.

(** The same input with all-zero maps, and with one more category. *)
Definition zero_events : gmap string (entry Z Z (ndarray Z)) :=
  {[ "nue_cc" := Template (demo_template [[0; 0]; [0; 0]]%Z);
     "numu_cc" := Template (demo_template [[0; 0]; [0; 0]]%Z);
     "nutau_cc" := Template (demo_template [[0; 0]; [0; 0]]%Z);
     "nuall_nc" := Template (demo_template [[0; 0]; [0; 0]]%Z);
     "params" := Params {[ "a" := 1%Z ]} ]}.

Definition demo_events_extra : gmap string (entry Z Z (ndarray Z)) :=
  <["numubar_cc" := Template {| ebins := [1; 2]%Z; czbins := [0; 1]%Z;
                                map_ := [[9; 9; 9]]%Z |}]> demo_events.

(** PID tables without the category "nuall_nc": one that is otherwise
    fine, and one whose first weight does not broadcast against a 2x2
    map. *)
Definition short_service : PIDService Z Z (ndarray Z) :=
  {| get_maps := delete "nuall_nc" (get_maps demo_service);
     pid_params := pid_params demo_service |}.

Definition clash_service : PIDService Z Z (ndarray Z) :=
  {| get_maps :=
       <["nue_cc" := {[ "trck" := Array [[1; 2; 3]]%Z; "cscd" := Scalar 9%Z ]}]>
         (get_maps short_service);
     pid_params := pid_params demo_service |}.

(** The input with other energy edges for "numu_cc". *)
Definition mismatch_events : gmap string (entry Z Z (ndarray Z)) :=
  <["numu_cc" := Template {| ebins := [1; 10; 1000]%Z; czbins := [-1; 0; 1]%Z;
                             map_ := [[5; 6]; [7; 8]]%Z |}]> demo_events.

(** A store for the integer input: the four maps at the references 0 to 3
    and the four array weights at 4 to 7. *)
Definition demo_store : list (ndarray Z) :=
  [ [[1; 2]; [3; 4]]; [[5; 6]; [7; 8]]; [[0; 1]; [1; 0]]; [[2; 2]; [2; 2]];
    [[7; 8]]; [[3; 2]]; [[1; 2]; [3; 4]]; [[4]; [5]] ]%Z.

Definition demo_template_ref (l : nat) : template Z nat :=
  {| ebins := [1; 10; 100]%Z; czbins := [-1; 0; 1]%Z; map_ := l |}.

Definition demo_events_ref : gmap string (entry Z Z nat) :=
  {[ "nue_cc" := Template (demo_template_ref 0);
     "numu_cc" := Template (demo_template_ref 1);
     "nutau_cc" := Template (demo_template_ref 2);
     "nuall_nc" := Template (demo_template_ref 3);
     "params" := Params {[ "a" := 1%Z ]} ]}.

Definition demo_service_ref : PIDService Z Z nat :=
  {| get_maps :=
       {[ "nue_cc" := {[ "trck" := Scalar 1%Z; "cscd" := Scalar 9%Z ]};
          "numu_cc" := {[ "trck" := Array 4; "cscd" := Array 5 ]};
          "nutau_cc" := {[ "trck" := Array 6; "cscd" := Array 7 ]};
          "nuall_nc" := {[ "trck" := Scalar 0%Z; "cscd" := Scalar 10%Z ]} ]};
     pid_params := {[ "a" := 2%Z; "b" := 3%Z ]} |}.

(** What a step may do to the store: it may grow, and the objects below
    [n] keep their contents. *)
Definition preserves {num : Type} (n : nat) (σ σ' : list (ndarray num)) : Prop :=
  length σ ≤ length σ' ∧ ∀ l, l < n → σ' !! l = σ !! l.

(** The references the dictionaries hold point below [n]. *)
Definition refs_below {num pvalue : Type} (n : nat)
    (reco_events : gmap string (entry num pvalue nat))
    (pid_dict : gmap string (gmap string (weight num nat))) : Prop :=
  (∀ flav t, reco_events !! flav = Some (Template t) → map_ t < n) ∧
  (∀ flav d sig l, pid_dict !! flav = Some d → d !! sig = Some (Array l) → l < n).

(** ** When a product can be added

    [event_map * w] has the shape numpy broadcasts the two operands to (the
    shape of the map for a number), and [+=] takes it when it broadcasts to
    the shape of the output. *)
Section ProductShapes.
Context {num pvalue : Type} `{Numeric num}.

Definition product_shape (a : ndarray num) (w : weight num (ndarray num))
    : option (nat * nat) :=
  match w with
  | Scalar _ => Some (shape a)
  | Array b => broadcast_shapes (shape a) (shape b)
  end.


End ProductShapes.

(** An input whose "numu_cc" map has one row: numpy adds that row to both
    rows of the output.  A second 2x2 input and the cell-wise sum of it and
    [demo_events].  A PID table with more entries than the loop reads. *)
Definition row_events : gmap string (entry Z Z (ndarray Z)) :=
  <["numu_cc" := Template (demo_template [[5; 6]]%Z)]> demo_events.

Definition demo_events_b : gmap string (entry Z Z (ndarray Z)) :=
  {[ "nue_cc" := Template (demo_template [[10; 0]; [0; 10]]%Z);
     "numu_cc" := Template (demo_template [[1; 1]; [1; 1]]%Z);
     "nutau_cc" := Template (demo_template [[2; 3]; [4; 5]]%Z);
     "nuall_nc" := Template (demo_template [[0; 0]; [7; 7]]%Z);
     "params" := Params {[ "a" := 1%Z ]} ]}.

Definition demo_events_sum : gmap string (entry Z Z (ndarray Z)) :=
  {[ "nue_cc" := Template (demo_template [[11; 2]; [3; 14]]%Z);
     "numu_cc" := Template (demo_template [[6; 7]; [8; 9]]%Z);
     "nutau_cc" := Template (demo_template [[2; 4]; [5; 5]]%Z);
     "nuall_nc" := Template (demo_template [[2; 2]; [9; 9]]%Z);
     "params" := Params {[ "a" := 1%Z ]} ]}.

Definition demo_service_extra : PIDService Z Z (ndarray Z) :=
  {| get_maps :=
       <["numubar_cc" := {[ "trck" := Scalar 1%Z ]}]>
         (<["nue_cc" := {[ "trck" := Scalar 1%Z; "cscd" := Scalar 9%Z;
                           "unkn" := Array [[1; 2; 3]]%Z ]}]>
            (get_maps demo_service));
     pid_params := pid_params demo_service |}.


(** What the call returns on some of these inputs. *)
Definition demo_result_of (t c : ndarray Z) : reco_events_pid Z Z (ndarray Z) :=
  {| trck := demo_template t; cscd := demo_template c;
     params := {[ "a" := 2%Z; "b" := 3%Z ]} |}.

Definition demo_result := demo_result_of [[36; 52]; [55; 68]]%Z [[44; 54]; [73; 72]]%Z.
Definition demo_result_b := demo_result_of [[19; 14]; [19; 38]]%Z [[101; 14]; [93; 187]]%Z.
Definition demo_result_sum := demo_result_of [[55; 66]; [74; 106]]%Z [[145; 68]; [166; 259]]%Z.
Definition row_result := demo_result_of [[36; 52]; [41; 52]]%Z [[44; 54]; [67; 68]]%Z.

(** The first key one pass of the loop does not find for a category, in the
    order of the lookups of lines 60, 62 and 63: the category in the input,
    the category in the PID table, then 'trck' and 'cscd'. *)
Definition missing_key {num pvalue : Type}
    (reco_events : gmap string (entry num pvalue (ndarray num)))
    (pid_dict : gmap string (gmap string (weight num (ndarray num))))
    (flav : string) : option string :=
  match reco_events !! flav with
  | None => Some flav
  | Some _ =>
      match pid_dict !! flav with
      | None => Some flav
      | Some d =>
          match d !! "trck" with
          | None => Some "trck"
          | Some _ =>
              match d !! "cscd" with
              | None => Some "cscd"
              | Some _ => None
              end
          end
      end
  end.

(** Binary64 inputs with 1x1 maps: "nue_cc" holds [x] and the other
    categories hold 0; and a PID table whose track weights are infinite. *)
Definition float_template (x : float) : template float (ndarray float) :=
  {| ebins := [1; 10]%float; czbins := [-1; 1]%float; map_ := [[x]] |}.

Definition float_events (x : float) : gmap string (entry float Z (ndarray float)) :=
  {[ "nue_cc" := Template (float_template x);
     "numu_cc" := Template (float_template 0);
     "nutau_cc" := Template (float_template 0);
     "nuall_nc" := Template (float_template 0);
     "params" := Params ∅ ]}.

Definition inf_service : PIDService float Z (ndarray float) :=
  {| get_maps :=
       list_to_map
         ((λ flav, (flav, {[ "trck" := Scalar infinity;
                             "cscd" := Scalar 0.3%float ]})) <$> flavours);
     pid_params := ∅ |}.


(** * Properties *)

(** ** The result monad *)

Lemma bind_Ok {A B} (m : result A) (f : A → result B) (b : B) :
  m ≫= f = Ok b ↔ ∃ a, m = Ok a ∧ f a = Ok b.
Proof.
  destruct m as [a|e]; simpl; split.
  - intros Hf. by exists a.
  - by intros (a' & [= <-] & Hf).
  - discriminate.
  - by intros (a' & [=] & _).
Qed.

Lemma getitem_Ok {V} (d : gmap string V) (k : string) (v : V) :
  getitem d k = Ok v ↔ d !! k = Some v.
Proof. unfold getitem. destruct (d !! k); split; congruence. Qed.

Lemma getitem_Err {V} (d : gmap string V) (k : string) :
  d !! k = None → getitem d k = Err (KeyError k).
Proof. unfold getitem. by intros ->. Qed.

(** ** Arrays *)

Section ArrayFacts.
Context {num : Type} `{Numeric num}.
Implicit Types (a b out x : ndarray num) (f g : nat → nat → num).

Lemma tabulate2_length r c f : length (tabulate2 r c f) = r.
Proof. unfold tabulate2. by rewrite length_fmap, length_seq. Qed.

Lemma tabulate2_lookup r c f i :
  i < r → tabulate2 r c f !! i = Some (f i <$> seq 0 c).
Proof.
  intros Hi. unfold tabulate2.
  rewrite list_lookup_fmap, lookup_seq_lt by done. done.
Qed.

Lemma cell_tabulate2 r c f i j :
  i < r → j < c → cell (tabulate2 r c f) i j = Some (f i j).
Proof.
  intros Hi Hj. unfold cell. rewrite tabulate2_lookup by done. simpl.
  rewrite list_lookup_fmap, lookup_seq_lt by done. done.
Qed.

Lemma nrows_tabulate2 r c f : nrows (tabulate2 r c f) = r.
Proof. apply tabulate2_length. Qed.

Lemma ncols_tabulate2 r c f :
  ncols (tabulate2 r c f) = if decide (r = 0) then 0 else c.
Proof.
  destruct r as [|r]; [done|]. unfold tabulate2, ncols. simpl.
  by rewrite length_fmap, length_seq.
Qed.

Lemma is_array_tabulate2 r c f : is_array (tabulate2 r c f).
Proof.
  unfold is_array. rewrite ncols_tabulate2. apply Forall_forall.
  intros row Hrow. unfold tabulate2 in Hrow.
  apply list_elem_of_fmap in Hrow as (i & -> & Hi).
  rewrite length_fmap, length_seq.
  case_decide; [|done]. subst r. simpl in Hi. by apply elem_of_nil in Hi.
Qed.

Lemma has_shape_zero r c a : has_shape r c a → r = 0 → c = 0.
Proof.
  intros [_ Hs] ->. unfold shape, nrows, ncols in Hs.
  destruct a; simpl in Hs; congruence.
Qed.

Lemma has_shape_tabulate2 r c f :
  (r = 0 → c = 0) → has_shape r c (tabulate2 r c f).
Proof.
  intros Hrc. split; [apply is_array_tabulate2|].
  unfold shape. rewrite nrows_tabulate2, ncols_tabulate2.
  case_decide; [by rewrite Hrc|done].
Qed.


Lemma cell_bget r c a i j :
  has_shape r c a → i < r → j < c → cell a i j = Some (bget a i j).
Proof.
  intros [Harr Hs] Hi Hj. injection Hs as Hr Hc.
  unfold bget. rewrite Hr, Hc.
  assert (cell a i j = cell a (if decide (r = 1) then 0 else i)
                              (if decide (c = 1) then 0 else j)) as <-.
  { repeat case_decide; subst; repeat f_equal; lia. }
  unfold cell. unfold nrows in Hr.
  destruct (lookup_lt_is_Some_2 a i) as [row Hrow]; [lia|].
  rewrite Hrow. simpl.
  assert (length row = c) as Hlen.
  { rewrite <- Hc. eapply (proj1 (Forall_forall _ _) Harr), list_elem_of_lookup_2, Hrow. }
  destruct (lookup_lt_is_Some_2 row j) as [v Hv]; [lia|].
  by rewrite Hv.
Qed.

Lemma bget_tabulate2 r c f i j :
  i < r → j < c → bget (tabulate2 r c f) i j = f i j.
Proof.
  intros Hi Hj.
  assert (has_shape r c (tabulate2 r c f)) as Hs by (apply has_shape_tabulate2; lia).
  pose proof (cell_bget r c _ i j Hs Hi Hj) as Hcell.
  rewrite cell_tabulate2 in Hcell by done. congruence.
Qed.

(** zeros_like *)

Lemma nrows_zeros_like a : nrows (zeros_like a) = nrows a.
Proof. unfold nrows, zeros_like. by rewrite length_fmap. Qed.

Lemma ncols_zeros_like a : ncols (zeros_like a) = ncols a.
Proof. destruct a; [done|]. unfold ncols, zeros_like. simpl. by rewrite length_fmap. Qed.

Lemma has_shape_zeros_like r c a : has_shape r c a → has_shape r c (zeros_like a).
Proof.
  intros [Harr Hs]. split.
  - unfold is_array in *. rewrite ncols_zeros_like. unfold zeros_like.
    rewrite Forall_fmap. eapply Forall_impl; [exact Harr|].
    intros row Hrow. simpl. by rewrite length_fmap.
  - unfold shape in *. by rewrite nrows_zeros_like, ncols_zeros_like.
Qed.

Lemma all_zero_zeros_like a : all_zero (zeros_like a).
Proof.
  unfold all_zero, zeros_like. rewrite Forall_fmap. apply Forall_forall.
  intros row _. simpl. rewrite Forall_fmap. by apply Forall_forall.
Qed.

Lemma all_zero_cell a i j v : all_zero a → cell a i j = Some v → v = zero.
Proof.
  intros Hz Hc. unfold cell in Hc.
  destruct (a !! i) as [row|] eqn:Hrow; [|done]. simpl in Hc.
  apply list_elem_of_lookup_2 in Hrow, Hc.
  unfold all_zero in Hz. rewrite Forall_forall in Hz.
  specialize (Hz row Hrow). rewrite Forall_forall in Hz. by apply Hz.
Qed.

Lemma all_zero_bget a i j : all_zero a → bget a i j = zero.
Proof.
  intros Hz. unfold bget.
  destruct (cell a _ _) as [v|] eqn:Hc; [|done]. simpl.
  by eapply all_zero_cell.
Qed.

Lemma all_zero_tabulate2 r c f :
  (∀ i j, i < r → j < c → f i j = zero) → all_zero (tabulate2 r c f).
Proof.
  intros Hf. unfold all_zero, tabulate2. rewrite Forall_fmap.
  apply Forall_forall. intros i Hi. simpl. rewrite Forall_fmap.
  apply Forall_forall. intros j Hj. simpl.
  apply elem_of_seq in Hi, Hj. apply Hf; lia.
Qed.

Lemma bget_zeros_like a i j : bget (zeros_like a) i j = zero.
Proof. apply all_zero_bget, all_zero_zeros_like. Qed.

(** The operations on arrays of matching shapes *)

Lemma broadcast_shapes_same r c : broadcast_shapes (r, c) (r, c) = Some (r, c).
Proof.
  unfold broadcast_shapes, broadcast_dim. simpl.
  rewrite !decide_True by done. done.
Qed.

Lemma iadd_has_shape r c out x :
  has_shape r c out → has_shape r c x →
  iadd out x = Ok (tabulate2 r c (λ i j, bget out i j ⊕ bget x i j)).
Proof.
  intros [_ Ho] [_ Hx]. unfold iadd. rewrite Ho, Hx.
  rewrite decide_True by apply broadcast_shapes_same.
  injection Ho as -> ->. done.
Qed.
End ArrayFacts.

(** ** The loop on well-shaped inputs *)

Section LoopFacts.
Context {num pvalue : Type} `{Numeric num}.
Implicit Types (reco_events : gmap string (entry num pvalue (ndarray num))).
Implicit Types (pid_dict : gmap string (gmap string (weight num (ndarray num)))).
Implicit Types (w : weight num (ndarray num)) (a : ndarray num).

Lemma mul_weight_fits r c a w :
  has_shape r c a → fits r c w →
  mul_weight a w = Ok (tabulate2 r c (λ i j, bget a i j ⊗ weight_at w i j)).
Proof.
  intros [_ Hs] Hw. destruct w as [x|b]; simpl in *.
  - injection Hs as -> ->. done.
  - unfold ndarray_mul. by rewrite Hs, Hw.
Qed.

Lemma reco_map_Template reco_events flav t :
  reco_events !! flav = Some (Template t) → reco_map reco_events flav = Ok (map_ t).
Proof. intros Hl. unfold reco_map, getitem. by rewrite Hl. Qed.

Lemma pid_weight_lookup pid_dict flav sig d w :
  pid_dict !! flav = Some d → d !! sig = Some w →
  pid_weight pid_dict flav sig = Ok w.
Proof. intros Hd Hw. unfold pid_weight, getitem. rewrite Hd. simpl. by rewrite Hw. Qed.

Lemma pid_step_valid r c reco_events pid_dict flav t d wt wc trck_map cscd_map :
  reco_events !! flav = Some (Template t) → has_shape r c (map_ t) →
  pid_dict !! flav = Some d → d !! "trck" = Some wt → d !! "cscd" = Some wc →
  fits r c wt → fits r c wc →
  has_shape r c trck_map → has_shape r c cscd_map →
  ∃ trck' cscd',
    pid_step reco_events pid_dict (trck_map, cscd_map) flav = Ok (trck', cscd') ∧
    has_shape r c trck' ∧ has_shape r c cscd' ∧
    ∀ i j, i < r → j < c →
      bget trck' i j
        = bget trck_map i j
          ⊕ event_rate reco_events flav i j ⊗ pid_at pid_dict flav "trck" i j ∧
      bget cscd' i j
        = bget cscd_map i j
          ⊕ event_rate reco_events flav i j ⊗ pid_at pid_dict flav "cscd" i j.
Proof.
  intros Hre Hmap Hd Hwt Hwc Hfwt Hfwc Ht Hc.
  pose proof (has_shape_zero _ _ _ Hmap) as Hrc.
  unfold pid_step.
  rewrite (reco_map_Template _ _ _ Hre). simpl.
  rewrite (pid_weight_lookup _ _ _ _ _ Hd Hwt). simpl.
  rewrite (mul_weight_fits r c _ _ Hmap Hfwt). simpl.
  rewrite (pid_weight_lookup _ _ _ _ _ Hd Hwc). simpl.
  rewrite (mul_weight_fits r c _ _ Hmap Hfwc). simpl.
  rewrite (iadd_has_shape r c) by (done || by apply has_shape_tabulate2). simpl.
  rewrite (iadd_has_shape r c) by (done || by apply has_shape_tabulate2). simpl.
  eexists _, _. split; [done|].
  split; [by apply has_shape_tabulate2|]. split; [by apply has_shape_tabulate2|].
  intros i j Hi Hj. rewrite !bget_tabulate2 by done.
  unfold event_rate, pid_at. rewrite Hre, Hd. simpl. by rewrite Hwt, Hwc.
Qed.

Lemma pid_loop_valid r c reco_events pid_dict flavs :
  (∀ flav, flav ∈ flavs →
     ∃ t, reco_events !! flav = Some (Template t) ∧ has_shape r c (map_ t)) →
  (∀ flav, flav ∈ flavs →
     ∃ d wt wc, pid_dict !! flav = Some d ∧
       d !! "trck" = Some wt ∧ d !! "cscd" = Some wc ∧ fits r c wt ∧ fits r c wc) →
  ∀ trck_map cscd_map,
  has_shape r c trck_map → has_shape r c cscd_map →
  ∃ trck' cscd',
    pid_loop reco_events pid_dict flavs (trck_map, cscd_map) = Ok (trck', cscd') ∧
    has_shape r c trck' ∧ has_shape r c cscd' ∧
    ∀ i j, i < r → j < c →
      bget trck' i j
        = accumulated reco_events pid_dict "trck" flavs (bget trck_map i j) i j ∧
      bget cscd' i j
        = accumulated reco_events pid_dict "cscd" flavs (bget cscd_map i j) i j.
Proof.
  induction flavs as [|flav rest IH]; intros Hre Hpid trck_map cscd_map Ht Hc.
  { exists trck_map, cscd_map. split; [done|]. split; [done|]. split; [done|]. done. }
  destruct (Hre flav) as (t & Hlook & Hmap); [by left|].
  destruct (Hpid flav) as (d & wt & wc & Hd & Hwt & Hwc & Hfwt & Hfwc); [by left|].
  destruct (pid_step_valid r c reco_events pid_dict flav t d wt wc
              trck_map cscd_map) as (t1 & c1 & Hstep & Ht1 & Hc1 & Hcells); try done.
  destruct (IH (λ f Hf, Hre f (list_elem_of_further _ _ _ Hf))
               (λ f Hf, Hpid f (list_elem_of_further _ _ _ Hf))
               t1 c1 Ht1 Hc1) as (t2 & c2 & Hloop & Ht2 & Hc2 & Hcells2).
  exists t2, c2. simpl. rewrite Hstep. simpl. split; [done|].
  split; [done|]. split; [done|].
  intros i j Hi Hj.
  destruct (Hcells i j Hi Hj) as [E1 E2]. destruct (Hcells2 i j Hi Hj) as [E3 E4].
  unfold accumulated in *. simpl. by rewrite E3, E4, E1, E2.
Qed.
End LoopFacts.

(** ** The call as a whole *)

Section CallFacts.
Context {num pvalue : Type} `{Numeric num}.
Variable get_binning :
  gmap string (entry num pvalue (ndarray num)) → result (list num * list num).
Variable get_params :
  gmap string (entry num pvalue (ndarray num)) →
  PIDService num pvalue (ndarray num) →
  gmap string pvalue → gmap string pvalue.
Variable add_params :
  gmap string pvalue → gmap string pvalue → result (gmap string pvalue).
Implicit Types (reco_events : gmap string (entry num pvalue (ndarray num))).
Implicit Types (pid_service : PIDService num pvalue (ndarray num)).
Implicit Types (kwargs : gmap string pvalue).

(** The call returns exactly when each of its steps does. *)
Lemma get_pid_maps_Ok reco_events pid_service kwargs out :
  get_pid_maps get_binning get_params add_params reco_events pid_service kwargs
    = Ok out ↔
  ∃ bins nue p merged maps,
    get_binning reco_events = Ok bins ∧
    reco_map reco_events "nue_cc" = Ok nue ∧
    reco_params reco_events = Ok p ∧
    add_params (get_params reco_events pid_service kwargs) p = Ok merged ∧
    pid_loop reco_events (get_maps pid_service) flavours
      (zeros_like nue, zeros_like nue) = Ok maps ∧
    out = {| trck := {| map_ := maps.1; czbins := bins.2; ebins := bins.1 |};
             cscd := {| map_ := maps.2; czbins := bins.2; ebins := bins.1 |};
             params := merged |}.
Proof.
  unfold get_pid_maps. split.
  - intros Hcall.
    apply bind_Ok in Hcall as (bins & Hbins & Hcall).
    apply bind_Ok in Hcall as (nue & Hnue & Hcall).
    apply bind_Ok in Hcall as (nue' & Hnue' & Hcall).
    apply bind_Ok in Hcall as (p & Hp & Hcall).
    apply bind_Ok in Hcall as (merged & Hmerged & Hcall).
    apply bind_Ok in Hcall as (maps & Hmaps & Hcall).
    rewrite Hnue in Hnue'. injection Hnue' as <-. injection Hcall as <-.
    by exists bins, nue, p, merged, maps.
  - intros (bins & nue & p & merged & maps & Hbins & Hnue & Hp & Hmerged & Hmaps & ->).
    rewrite Hbins. cbn -[pid_loop]. rewrite Hnue. cbn -[pid_loop].
    rewrite Hp. cbn -[pid_loop]. rewrite Hmerged. cbn -[pid_loop].
    rewrite Hmaps. done.
Qed.

(** On a valid input the call returns, and every cell holds the sum the
    loop accumulates from zero. *)
Lemma get_pid_maps_valid r c reco_events pid_service kwargs :
  valid_input get_binning get_params add_params r c reco_events pid_service kwargs →
  ∃ out bins,
    get_pid_maps get_binning get_params add_params reco_events pid_service kwargs
      = Ok out ∧
    get_binning reco_events = Ok bins ∧
    (ebins (trck out), czbins (trck out)) = bins ∧
    (ebins (cscd out), czbins (cscd out)) = bins ∧
    has_shape r c (map_ (trck out)) ∧ has_shape r c (map_ (cscd out)) ∧
    ∀ i j, i < r → j < c →
      cell (map_ (trck out)) i j
        = Some (accumulated reco_events (get_maps pid_service) "trck" flavours zero i j) ∧
      cell (map_ (cscd out)) i j
        = Some (accumulated reco_events (get_maps pid_service) "cscd" flavours zero i j).
Proof.
  intros [[bins Hbins] Hmaps (p & Hp & merged & Hmerged) Hweights].
  destruct (Hmaps "nue_cc") as (nue & Hnue & Hshape); [by left|].
  destruct (pid_loop_valid r c reco_events (get_maps pid_service) flavours
              Hmaps Hweights (zeros_like (map_ nue)) (zeros_like (map_ nue)))
    as (t' & c' & Hloop & Ht' & Hc' & Hcells); [by apply has_shape_zeros_like..|].
  eexists _, bins. split.
  { apply get_pid_maps_Ok. exists bins, (map_ nue), p, merged, (t', c').
    split; [done|]. split; [by apply reco_map_Template|].
    split; [by unfold reco_params, getitem; rewrite Hp|]. by repeat split. }
  simpl. split; [done|]. split; [by destruct bins|]. split; [by destruct bins|].
  split; [done|]. split; [done|].
  intros i j Hi Hj. destruct (Hcells i j Hi Hj) as [E1 E2].
  rewrite !(cell_bget r c) by done. rewrite E1, E2, !bget_zeros_like. done.
Qed.
End CallFacts.

(** ** Exact arithmetic *)

#[export] Instance Z_exact : ExactArith Z.
Proof.
  split; unfold add, mul, zero; simpl; intros; lia.
Qed.

Section Exact.
Context {num : Type} `{ExactArith num}.
Implicit Types (x y z : num).


Lemma add_zero_r x : x ⊕ zero = x.
Proof. by rewrite add_comm, add_zero_l. Qed.

Lemma add_interchange x y z u : (x ⊕ y) ⊕ (z ⊕ u) = (x ⊕ z) ⊕ (y ⊕ u).
Proof.
  rewrite <- (add_assoc x y), (add_assoc y z u), (add_comm y z).
  by rewrite <- (add_assoc z y u), add_assoc.
Qed.
End Exact.

(** Proving [valid_input] for a concrete input: one case per category. *)
Ltac each_flavour H :=
  unfold flavours in H;
  repeat (apply elem_of_cons in H as [->|H]);
  [..|by apply elem_of_nil in H].

Lemma demo_valid :
  valid_input (Spec.get_binning Z.eqb) Spec.get_params Spec.add_params
    2 2 demo_events demo_service ∅.
Proof.
  split.
  - eexists. vm_compute. reflexivity.
  - intros flav Hf. each_flavour Hf;
      (eexists; split; [vm_compute; reflexivity|]);
      (split; [by repeat constructor|reflexivity]).
  - eexists. split; [vm_compute; reflexivity|]. eexists. reflexivity.
  - intros flav Hf. each_flavour Hf;
      (eexists _, _, _; split; [vm_compute; reflexivity|]);
      (split; [vm_compute; reflexivity|]); (split; [vm_compute; reflexivity|]);
      (split; vm_compute; done).
Defined.

(** ** Conservation *)

Section Conservation.
Context {num pvalue : Type} `{ExactArith num}.
Variable get_binning :
  gmap string (entry num pvalue (ndarray num)) → result (list num * list num).
Variable get_params :
  gmap string (entry num pvalue (ndarray num)) →
  PIDService num pvalue (ndarray num) →
  gmap string pvalue → gmap string pvalue.
Variable add_params :
  gmap string pvalue → gmap string pvalue → result (gmap string pvalue).
Implicit Types (reco_events : gmap string (entry num pvalue (ndarray num))).
Implicit Types (pid_dict : gmap string (gmap string (weight num (ndarray num)))).


End Conservation.


(** ** What a returning loop has read *)

Section LoopInversion.
Context {num pvalue : Type} `{Numeric num}.
Implicit Types (reco_events : gmap string (entry num pvalue (ndarray num))).
Implicit Types (pid_dict : gmap string (gmap string (weight num (ndarray num)))).

Lemma reco_map_Ok reco_events flav a :
  reco_map reco_events flav = Ok a ↔
  ∃ t, reco_events !! flav = Some (Template t) ∧ a = map_ t.
Proof.
  unfold reco_map. rewrite bind_Ok. split.
  - intros (e & He & Ha). apply getitem_Ok in He.
    destruct e as [t|p]; [|done]. injection Ha as <-. by exists t.
  - intros (t & Ht & ->). exists (Template t). by rewrite getitem_Ok.
Qed.

Lemma pid_weight_Ok pid_dict flav sig w :
  pid_weight pid_dict flav sig = Ok w ↔ pid_dict !! flav ≫= (.!! sig) = Some w.
Proof.
  unfold pid_weight. rewrite bind_Ok. split.
  - intros (d & Hd & Hw). apply getitem_Ok in Hd, Hw. by rewrite Hd.
  - intros Hw. destruct (pid_dict !! flav) as [d|] eqn:Hd; [|done].
    exists d. by rewrite !getitem_Ok.
Qed.

Lemma pid_step_Ok reco_events pid_dict acc flav acc' :
  pid_step reco_events pid_dict acc flav = Ok acc' ↔
  ∃ event_map wt wc to_trck_map to_cscd_map,
    reco_map reco_events flav = Ok event_map ∧
    pid_weight pid_dict flav "trck" = Ok wt ∧
    mul_weight event_map wt = Ok to_trck_map ∧
    pid_weight pid_dict flav "cscd" = Ok wc ∧
    mul_weight event_map wc = Ok to_cscd_map ∧
    iadd acc.1 to_trck_map = Ok acc'.1 ∧
    iadd acc.2 to_cscd_map = Ok acc'.2.
Proof.
  unfold pid_step. split.
  - intros Hstep.
    apply bind_Ok in Hstep as (event_map & Hev & Hstep).
    apply bind_Ok in Hstep as (wt & Hwt & Hstep).
    apply bind_Ok in Hstep as (m1 & Hm1 & Hstep).
    apply bind_Ok in Hstep as (wc & Hwc & Hstep).
    apply bind_Ok in Hstep as (m2 & Hm2 & Hstep).
    apply bind_Ok in Hstep as (t' & Ht' & Hstep).
    apply bind_Ok in Hstep as (c' & Hc' & Hstep).
    injection Hstep as <-. by exists event_map, wt, wc, m1, m2.
  - intros (event_map & wt & wc & m1 & m2 & -> & -> & Hm1 & -> & Hm2 & Ht & Hc).
    simpl. rewrite Hm1. simpl. rewrite Hm2. simpl. rewrite Ht. simpl.
    rewrite Hc. simpl. by destruct acc'.
Qed.

(** The loop reads the input only at the categories it iterates over. *)
Lemma pid_loop_agree reco_events reco_events' pid_dict flavs acc :
  (∀ flav, flav ∈ flavs → reco_events !! flav = reco_events' !! flav) →
  pid_loop reco_events pid_dict flavs acc = pid_loop reco_events' pid_dict flavs acc.
Proof.
  revert acc. induction flavs as [|flav rest IH]; intros acc Hagree; [done|].
  simpl. assert (pid_step reco_events pid_dict acc flav
                 = pid_step reco_events' pid_dict acc flav) as ->.
  { unfold pid_step, reco_map, getitem. rewrite (Hagree flav) by left. done. }
  destruct (pid_step reco_events' pid_dict acc flav) as [acc'|e]; [|done].
  simpl. apply IH. intros f Hf. apply Hagree. by right.
Qed.

(** A returning loop found every category and both of its weights. *)
Lemma pid_loop_Ok_lookups reco_events pid_dict flavs acc acc' :
  pid_loop reco_events pid_dict flavs acc = Ok acc' →
  ∀ flav, flav ∈ flavs →
    (∃ t, reco_events !! flav = Some (Template t)) ∧
    is_Some (pid_dict !! flav ≫= (.!! "trck")) ∧
    is_Some (pid_dict !! flav ≫= (.!! "cscd")).
Proof.
  revert acc. induction flavs as [|flav rest IH]; intros acc Hloop f Hf.
  { by apply elem_of_nil in Hf. }
  simpl in Hloop. apply bind_Ok in Hloop as (acc1 & Hstep & Hloop).
  apply elem_of_cons in Hf as [->|Hf]; [|by eapply IH].
  apply pid_step_Ok in Hstep
    as (ev & wt & wc & _ & _ & Hev & Hwt & _ & Hwc & _).
  apply reco_map_Ok in Hev as (t & Ht & _).
  apply pid_weight_Ok in Hwt, Hwc. rewrite Hwt, Hwc. eauto.
Qed.
End LoopInversion.

(** ** Categories the loop does not name *)

Section ExtraCategories.
Context {num pvalue : Type} `{Numeric num}.
Variable get_binning :
  gmap string (entry num pvalue (ndarray num)) → result (list num * list num).
Variable get_params :
  gmap string (entry num pvalue (ndarray num)) →
  PIDService num pvalue (ndarray num) →
  gmap string pvalue → gmap string pvalue.
Variable add_params :
  gmap string pvalue → gmap string pvalue → result (gmap string pvalue).
Implicit Types (reco_events : gmap string (entry num pvalue (ndarray num))).

(** C10 (other keys are ignored).  Two inputs that agree on the four
    category names give the same trck and cscd maps whenever both calls
    return; and when the helpers answer the same on both and ['params'] is
    the same, the two calls agree altogether, result or exception. *)
Theorem extra_categories_ignored reco_events reco_events' pid_service kwargs :
  (∀ flav, flav ∈ flavours → reco_events !! flav = reco_events' !! flav) →
  (∀ out out',
     get_pid_maps get_binning get_params add_params reco_events pid_service kwargs
       = Ok out →
     get_pid_maps get_binning get_params add_params reco_events' pid_service kwargs
       = Ok out' →
     map_ (trck out) = map_ (trck out') ∧ map_ (cscd out) = map_ (cscd out')) ∧
  (get_binning reco_events = get_binning reco_events' →
   get_params reco_events pid_service kwargs
     = get_params reco_events' pid_service kwargs →
   reco_events !! "params" = reco_events' !! "params" →
   get_pid_maps get_binning get_params add_params reco_events pid_service kwargs
   = get_pid_maps get_binning get_params add_params reco_events' pid_service kwargs).
Proof.
  intros Hagree.
  assert (reco_map reco_events "nue_cc" = reco_map reco_events' "nue_cc") as Hnue.
  { unfold reco_map, getitem. rewrite (Hagree "nue_cc") by left. done. }
  split.
  - intros out out' Hcall Hcall'.
    apply get_pid_maps_Ok in Hcall
      as (bins & nue & p & merged & maps & _ & Hn & _ & _ & Hloop & ->).
    apply get_pid_maps_Ok in Hcall'
      as (bins' & nue' & p' & merged' & maps' & _ & Hn' & _ & _ & Hloop' & ->).
    rewrite Hnue, Hn' in Hn. injection Hn as ->.
    rewrite (pid_loop_agree _ _ _ _ _ Hagree), Hloop' in Hloop.
    injection Hloop as ->. done.
  - intros Hbins Hparams Hp. unfold get_pid_maps, reco_params, getitem.
    rewrite Hbins, Hparams, Hnue, Hp.
    destruct (get_binning reco_events') as [bins|]; [|done]. cbn -[pid_loop].
    destruct (reco_map reco_events' "nue_cc") as [nue|]; [|done]. cbn -[pid_loop].
    by rewrite (pid_loop_agree _ _ _ _ _ Hagree).
Qed.
End ExtraCategories.

Lemma demo_events_extra_agree flav :
  flav ∈ flavours → demo_events !! flav = demo_events_extra !! flav.
Proof. intros Hf. each_flavour Hf; vm_compute; reflexivity. Defined.

Lemma extra_categories_ignored_witness :
  (∀ out out',
     get_pid_maps (Spec.get_binning Z.eqb) Spec.get_params Spec.add_params
       demo_events demo_service ∅ = Ok out →
     get_pid_maps (Spec.get_binning Z.eqb) Spec.get_params Spec.add_params
       demo_events_extra demo_service ∅ = Ok out' →
     map_ (trck out) = map_ (trck out') ∧ map_ (cscd out) = map_ (cscd out')) ∧
  get_pid_maps (Spec.get_binning Z.eqb) Spec.get_params Spec.add_params
    demo_events demo_service ∅
  = get_pid_maps (Spec.get_binning Z.eqb) Spec.get_params Spec.add_params
      demo_events_extra demo_service ∅.
Proof.
  destruct (extra_categories_ignored
              (Spec.get_binning Z.eqb) Spec.get_params Spec.add_params
              demo_events demo_events_extra demo_service ∅
              demo_events_extra_agree) as [Hmaps Hcall].
  split; [exact Hmaps|]. apply Hcall; vm_compute; reflexivity.
Defined.

(** ** Linearity *)

Section Linearity.
Context {num pvalue : Type} `{ExactArith num}.
Variable get_binning :
  gmap string (entry num pvalue (ndarray num)) → result (list num * list num).
Variable get_params :
  gmap string (entry num pvalue (ndarray num)) →
  PIDService num pvalue (ndarray num) →
  gmap string pvalue → gmap string pvalue.
Variable add_params :
  gmap string pvalue → gmap string pvalue → result (gmap string pvalue).
Implicit Types (reco_events : gmap string (entry num pvalue (ndarray num))).
Implicit Types (pid_dict : gmap string (gmap string (weight num (ndarray num)))).
Implicit Types (a b : ndarray num) (k : num).












End Linearity.


(** ** Missing categories *)

Section MissingCategory.
Context {num pvalue : Type} `{Numeric num}.
Variable get_binning :
  gmap string (entry num pvalue (ndarray num)) → result (list num * list num).
Variable get_params :
  gmap string (entry num pvalue (ndarray num)) →
  PIDService num pvalue (ndarray num) →
  gmap string pvalue → gmap string pvalue.
Variable add_params :
  gmap string pvalue → gmap string pvalue → result (gmap string pvalue).
Implicit Types (reco_events : gmap string (entry num pvalue (ndarray num))).
Implicit Types (pid_dict : gmap string (gmap string (weight num (ndarray num)))).

(** With every map and weight that is there well-shaped, the loop stops at
    the first category that lacks something, with the KeyError of the key it
    did not find. *)
Lemma pid_loop_missing r c reco_events pid_dict flavs :
  (∀ flav e, flav ∈ flavs → reco_events !! flav = Some e →
     ∃ t, e = Template t ∧ has_shape r c (map_ t)) →
  (∀ flav d w, flav ∈ flavs → pid_dict !! flav = Some d →
     d !! "trck" = Some w ∨ d !! "cscd" = Some w → fits r c w) →
  (∃ flav, flav ∈ flavs ∧
     (reco_events !! flav = None ∨
      pid_dict !! flav ≫= (.!! "trck") = None ∨
      pid_dict !! flav ≫= (.!! "cscd") = None)) →
  ∀ trck_map cscd_map,
  has_shape r c trck_map → has_shape r c cscd_map →
  ∃ pre flav post key,
    flavs = pre ++ flav :: post ∧
    (∀ f, f ∈ pre → missing_key reco_events pid_dict f = None) ∧
    missing_key reco_events pid_dict flav = Some key ∧
    pid_loop reco_events pid_dict flavs (trck_map, cscd_map) = Err (KeyError key).
Proof.
  induction flavs as [|flav rest IH]; intros Hmaps Hfits Hmiss trck_map cscd_map Ht Hc.
  { destruct Hmiss as (f & Hf & _). by apply elem_of_nil in Hf. }
  simpl. unfold pid_step at 1.
  destruct (reco_events !! flav) as [e|] eqn:He; cycle 1.
  { exists [], flav, rest, flav. split; [done|].
    split; [by intros f Hf%elem_of_nil|].
    split; [by unfold missing_key; rewrite He|].
    unfold reco_map. by rewrite (getitem_Err _ _ He). }
  destruct (Hmaps flav e) as (t & -> & Hshape); [by left|done|].
  rewrite (reco_map_Template _ _ _ He). simpl.
  destruct (pid_dict !! flav) as [d|] eqn:Hd; cycle 1.
  { exists [], flav, rest, flav. split; [done|].
    split; [by intros f Hf%elem_of_nil|].
    split; [by unfold missing_key; rewrite He, Hd|].
    unfold pid_weight. by rewrite (getitem_Err _ _ Hd). }
  destruct (d !! "trck") as [wt|] eqn:Hwt; cycle 1.
  { exists [], flav, rest, "trck". split; [done|].
    split; [by intros f Hf%elem_of_nil|].
    split; [by unfold missing_key; rewrite He, Hd, Hwt|].
    unfold pid_weight. rewrite (proj2 (getitem_Ok _ _ _) Hd). simpl.
    by rewrite (getitem_Err _ _ Hwt). }
  rewrite (pid_weight_lookup _ _ _ _ _ Hd Hwt). simpl.
  rewrite (mul_weight_fits r c) by (done || (eapply Hfits; [by left|done|by left])).
  simpl.
  destruct (d !! "cscd") as [wc|] eqn:Hwc; cycle 1.
  { exists [], flav, rest, "cscd". split; [done|].
    split; [by intros f Hf%elem_of_nil|].
    split; [by unfold missing_key; rewrite He, Hd, Hwt, Hwc|].
    unfold pid_weight. rewrite (proj2 (getitem_Ok _ _ _) Hd). simpl.
    by rewrite (getitem_Err _ _ Hwc). }
  rewrite (pid_weight_lookup _ _ _ _ _ Hd Hwc). simpl.
  rewrite (mul_weight_fits r c) by (done || (eapply Hfits; [by left|done|by right])).
  simpl.
  pose proof (has_shape_zero _ _ _ Hshape) as Hrc.
  rewrite (iadd_has_shape r c) by (done || by apply has_shape_tabulate2). simpl.
  rewrite (iadd_has_shape r c) by (done || by apply has_shape_tabulate2). simpl.
  destruct (IH (λ f e Hf, Hmaps f e (list_elem_of_further _ _ _ Hf))
               (λ f d' w Hf, Hfits f d' w (list_elem_of_further _ _ _ Hf)))
    with (trck_map := tabulate2 r c
            (λ i j, bget trck_map i j ⊕ bget (tabulate2 r c
               (λ i j, bget (map_ t) i j ⊗ weight_at wt i j)) i j))
         (cscd_map := tabulate2 r c
            (λ i j, bget cscd_map i j ⊕ bget (tabulate2 r c
               (λ i j, bget (map_ t) i j ⊗ weight_at wc i j)) i j))
    as (pre & flav' & post & key & Hrest & Hpre & Hkey & Hloop);
    [|by apply has_shape_tabulate2..|].
  { destruct Hmiss as (f & Hf & Hlack). exists f. split; [|done].
    apply elem_of_cons in Hf as [->|Hf]; [|done].
    rewrite He, Hd in Hlack. simpl in Hlack. rewrite Hwt, Hwc in Hlack.
    by destruct Hlack as [?|[?|?]]. }
  exists (flav :: pre), flav', post, key. split; [by rewrite Hrest|].
  split; [|done]. intros f [->|Hf]%elem_of_cons; [|by apply Hpre].
  unfold missing_key. by rewrite He, Hd, Hwt, Hwc.
Qed.

(** C5, as amended (missing categories).  When the PID table lacks the
    track or the cascade weight of one of the four categories, or the input
    lacks one of the categories, the call does not return a result.  When
    moreover nothing fails earlier (the helpers return, ['params'] is there,
    and the maps and weights that are there have one shape (r, c) or
    broadcast to it), the exception is the KeyError of the key that was not
    found: for the first of the four categories that lacks something, the
    name of the category when the input or the PID table has no entry for
    it, else 'trck', else 'cscd' ([missing_key]). *)
Theorem missing_category r c reco_events pid_service kwargs :
  (∃ flav, flav ∈ flavours ∧
     (reco_events !! flav = None ∨
      get_maps pid_service !! flav ≫= (.!! "trck") = None ∨
      get_maps pid_service !! flav ≫= (.!! "cscd") = None)) →
  (∀ out,
     get_pid_maps get_binning get_params add_params reco_events pid_service kwargs
       ≠ Ok out) ∧
  (is_Ok (get_binning reco_events) →
   (∃ p, reco_events !! "params" = Some (Params p) ∧
      is_Ok (add_params (get_params reco_events pid_service kwargs) p)) →
   (∀ flav e, flav ∈ flavours → reco_events !! flav = Some e →
      ∃ t, e = Template t ∧ has_shape r c (map_ t)) →
   (∀ flav d w, flav ∈ flavours → get_maps pid_service !! flav = Some d →
      d !! "trck" = Some w ∨ d !! "cscd" = Some w → fits r c w) →
   ∃ pre flav post key,
     flavours = pre ++ flav :: post ∧
     (∀ f, f ∈ pre → missing_key reco_events (get_maps pid_service) f = None) ∧
     missing_key reco_events (get_maps pid_service) flav = Some key ∧
     get_pid_maps get_binning get_params add_params reco_events pid_service kwargs
       = Err (KeyError key)).
Proof.
  intros Hmiss. split.
  - intros out Hcall. destruct Hmiss as (flav & Hf & Hlack).
    apply get_pid_maps_Ok in Hcall
      as (bins & nue & p & merged & maps & _ & _ & _ & _ & Hloop & _).
    destruct (pid_loop_Ok_lookups _ _ _ _ _ Hloop flav Hf)
      as ((t & Ht) & [wt Hwt] & [wc Hwc]).
    destruct Hlack as [?|[?|?]]; congruence.
  - intros [bins Hbins] (p & Hp & merged & Hmerged) Hmaps Hfits.
    unfold get_pid_maps. rewrite Hbins. cbn -[pid_loop].
    destruct (reco_events !! "nue_cc") as [e|] eqn:Hnue; cycle 1.
    { exists [], "nue_cc", ["numu_cc"; "nutau_cc"; "nuall_nc"], "nue_cc".
      split; [done|]. split; [by intros f Hf%elem_of_nil|].
      split; [by unfold missing_key; rewrite Hnue|].
      unfold reco_map. by rewrite (getitem_Err _ _ Hnue). }
    destruct (Hmaps "nue_cc" e) as (nue & -> & Hshape); [by left|done|].
    rewrite (reco_map_Template _ _ _ Hnue). cbn -[pid_loop].
    unfold reco_params, getitem. rewrite Hp. cbn -[pid_loop].
    rewrite Hmerged. cbn -[pid_loop].
    destruct (pid_loop_missing r c reco_events (get_maps pid_service) flavours
                Hmaps Hfits Hmiss (zeros_like (map_ nue)) (zeros_like (map_ nue)))
      as (pre & flav & post & key & Hsplit & Hpre & Hkey & Hloop);
      [by apply has_shape_zeros_like..|].
    exists pre, flav, post, key. split; [done|]. split; [done|].
    split; [done|]. by rewrite Hloop.
Qed.
End MissingCategory.

(** C5, as stated, fails: the table lacks "nuall_nc", and the call raises
    the ValueError of the first product, not a KeyError. *)
Lemma missing_category_counterexample :
  get_maps clash_service !! "nuall_nc" = None ∧
  get_pid_maps (Spec.get_binning Z.eqb) Spec.get_params Spec.add_params
    demo_events clash_service ∅ = Err ValueError ∧
  ∀ key,
    get_pid_maps (Spec.get_binning Z.eqb) Spec.get_params Spec.add_params
      demo_events clash_service ∅ ≠ Err (KeyError key).
Proof.
  assert (get_pid_maps (Spec.get_binning Z.eqb) Spec.get_params Spec.add_params
            demo_events clash_service ∅ = Err ValueError) as Hcall
    by (vm_compute; reflexivity).
  split; [vm_compute; reflexivity|]. split; [exact Hcall|].
  intros key. rewrite Hcall. discriminate.
Qed.

Lemma missing_category_witness :
  (∀ out,
     get_pid_maps (Spec.get_binning Z.eqb) Spec.get_params Spec.add_params
       demo_events short_service ∅ ≠ Ok out) ∧
  ∃ pre flav post key,
    flavours = pre ++ flav :: post ∧
    (∀ f, f ∈ pre → missing_key demo_events (get_maps short_service) f = None) ∧
    missing_key demo_events (get_maps short_service) flav = Some key ∧
    get_pid_maps (Spec.get_binning Z.eqb) Spec.get_params Spec.add_params
      demo_events short_service ∅ = Err (KeyError key).
Proof.
  destruct (missing_category
              (Spec.get_binning Z.eqb) Spec.get_params Spec.add_params
              2 2 demo_events short_service ∅) as [Hnone Hkey].
  { exists "nuall_nc". split; [do 3 right; by left|]. right. left. vm_compute. reflexivity. }
  split; [exact Hnone|]. apply Hkey.
  - eexists. vm_compute. reflexivity.
  - eexists. split; [vm_compute; reflexivity|]. eexists. reflexivity.
  - intros flav e Hf. each_flavour Hf; vm_compute; intros [= <-];
      (eexists; split; [reflexivity|]); (split; [by repeat constructor|reflexivity]).
  - intros flav d w Hf. each_flavour Hf; vm_compute; intros [= <-];
      vm_compute; (intros [[= <-]|[= <-]]); vm_compute; done.
Defined.

(** ** The helpers of the spec *)

Section SpecHelpers.
Context {num pvalue : Type} `{Numeric num}.
Variable close : num → num → bool.
Implicit Types (reco_events : gmap string (entry num pvalue (ndarray num))).
Implicit Types (pid_service : PIDService num pvalue (ndarray num)).
Implicit Types (kwargs : gmap string pvalue).

Lemma elem_of_category_binnings reco_events (b : list num * list num) :
  b ∈ Spec.category_binnings reco_events ↔
  ∃ flav t, flav ∈ flavours ∧ reco_events !! flav = Some (Template t) ∧
    b = (ebins t, czbins t).
Proof.
  unfold Spec.category_binnings. rewrite list_elem_of_omap. split.
  - intros (flav & Hf & Hb).
    destruct (reco_events !! flav) as [[t|p]|] eqn:Hl; try done.
    injection Hb as <-. by exists flav, t.
  - intros (flav & t & Hf & Hl & ->). exists flav. by rewrite Hl.
Qed.

Lemma get_binning_Ok reco_events b :
  Spec.get_binning close reco_events = Ok b →
  b ∈ Spec.category_binnings reco_events.
Proof.
  unfold Spec.get_binning.
  destruct (Spec.category_binnings reco_events) as [|b0 found]; [done|].
  destruct (forallb _ _); [|done]. intros [= <-]. by left.
Qed.

Lemma get_binning_mismatch reco_events (b1 b2 : list num * list num) :
  b1 ∈ Spec.category_binnings reco_events →
  b2 ∈ Spec.category_binnings reco_events →
  Spec.same_binning close b1 b2 = false →
  Spec.get_binning close reco_events = Err BinningMismatch.
Proof.
  intros H1 H2 Hdiff. unfold Spec.get_binning.
  destruct (Spec.category_binnings reco_events) as [|b0 found] eqn:Hfound.
  { by apply elem_of_nil in H1. }
  destruct (forallb _ _) eqn:Hall; [|done]. exfalso.
  rewrite forallb_forall in Hall.
  specialize (Hall b1 (proj1 (list_elem_of_In _ _) H1)).
  rewrite forallb_forall in Hall.
  specialize (Hall b2 (proj1 (list_elem_of_In _ _) H2)). congruence.
Qed.

(** C4 (binning mismatch).  With the binning helper of the spec: when two
    of the categories carry bin edges that differ (beyond the tolerance),
    the call raises BinningMismatch and returns no result. *)
Theorem binning_mismatch reco_events pid_service kwargs flav flav' t t' :
  flav ∈ flavours → flav' ∈ flavours →
  reco_events !! flav = Some (Template t) →
  reco_events !! flav' = Some (Template t') →
  Spec.same_binning close (ebins t, czbins t) (ebins t', czbins t') = false →
  split close reco_events pid_service kwargs = Err BinningMismatch.
Proof.
  intros Hf Hf' Ht Ht' Hdiff. unfold split, get_pid_maps.
  rewrite (get_binning_mismatch reco_events _ _
             (proj2 (elem_of_category_binnings _ _) (ex_intro _ flav (ex_intro _ t
                (conj Hf (conj Ht eq_refl)))))
             (proj2 (elem_of_category_binnings _ _) (ex_intro _ flav' (ex_intro _ t'
                (conj Hf' (conj Ht' eq_refl)))))
             Hdiff).
  done.
Qed.

(** C6 (binning preservation).  With the helpers of the spec: on a valid
    input whose four categories carry the bin edges (e, cz), the call
    returns and both output maps carry exactly these edges. *)
Theorem binning_preserved r c reco_events pid_service kwargs (e cz : list num) :
  valid_input (Spec.get_binning close) Spec.get_params Spec.add_params
    r c reco_events pid_service kwargs →
  (∀ flav t, flav ∈ flavours → reco_events !! flav = Some (Template t) →
     ebins t = e ∧ czbins t = cz) →
  ∃ out,
    split close reco_events pid_service kwargs = Ok out ∧
    ebins (trck out) = e ∧ czbins (trck out) = cz ∧
    ebins (cscd out) = e ∧ czbins (cscd out) = cz.
Proof.
  intros Hvalid Hcommon.
  destruct (get_pid_maps_valid _ _ _ _ _ _ _ _ Hvalid)
    as (out & bins & Hcall & Hbins & Htrck & Hcscd & _).
  exists out. split; [exact Hcall|].
  apply get_binning_Ok, elem_of_category_binnings in Hbins
    as (flav & t & Hf & Ht & ->).
  destruct (Hcommon flav t Hf Ht) as [<- <-].
  injection Htrck as -> ->. injection Hcscd as -> ->. done.
Qed.

(** C3 (parameter merge).  With the helpers of the spec: the ['params'] of
    a returned result are the parameters of the input overlaid with those of
    the PID table, the table's entry winning where both have the key. *)
Theorem params_merged reco_events pid_service kwargs out p :
  split close reco_events pid_service kwargs = Ok out →
  reco_events !! "params" = Some (Params p) →
  params out = pid_params pid_service ∪ p ∧
  ∀ key, params out !! key
         = match pid_params pid_service !! key with
           | Some v => Some v
           | None => p !! key
           end.
Proof.
  intros Hcall Hp.
  apply get_pid_maps_Ok in Hcall
    as (bins & nue & p' & merged & maps & _ & _ & Hp' & Hmerged & _ & ->).
  unfold reco_params, getitem in Hp'. rewrite Hp in Hp'. injection Hp' as <-.
  injection Hmerged as <-. simpl. split; [done|].
  intros key. unfold Spec.get_params. rewrite lookup_union.
  destruct (pid_params pid_service !! key), (p !! key); done.
Qed.
End SpecHelpers.

Lemma binning_mismatch_witness :
  split Z.eqb mismatch_events demo_service ∅ = Err BinningMismatch.
Proof.
  apply (binning_mismatch Z.eqb mismatch_events demo_service ∅
           "nue_cc" "numu_cc"
           (demo_template [[1; 2]; [3; 4]]%Z)
           {| ebins := [1; 10; 1000]%Z; czbins := [-1; 0; 1]%Z;
              map_ := [[5; 6]; [7; 8]]%Z |}).
  - by left.
  - right. by left.
  - vm_compute. reflexivity.
  - vm_compute. reflexivity.
  - vm_compute. reflexivity.
Defined.

Lemma demo_events_binning flav t :
  flav ∈ flavours → demo_events !! flav = Some (Template t) →
  ebins t = [1; 10; 100]%Z ∧ czbins t = [-1; 0; 1]%Z.
Proof. intros Hf. each_flavour Hf; vm_compute; intros [= <-]; done. Defined.

Lemma binning_preserved_witness :
  ∃ out,
    split Z.eqb demo_events demo_service ∅ = Ok out ∧
    ebins (trck out) = [1; 10; 100]%Z ∧ czbins (trck out) = [-1; 0; 1]%Z ∧
    ebins (cscd out) = [1; 10; 100]%Z ∧ czbins (cscd out) = [-1; 0; 1]%Z.
Proof.
  exact (binning_preserved Z.eqb 2 2 demo_events demo_service ∅
           [1; 10; 100]%Z [-1; 0; 1]%Z demo_valid demo_events_binning).
Defined.

(** The parameter scenario of the spec: input parameters {"a": 1}, PID table
    parameters {"a": 2, "b": 3}. *)
Lemma params_merged_witness :
  ∃ out,
    split PrimFloat.eqb (scenario_events {[ "a" := 1%Z ]})
      (scenario_service {[ "a" := 2%Z; "b" := 3%Z ]}) ∅ = Ok out ∧
    params out = {[ "a" := 2%Z; "b" := 3%Z ]} ∧
    ∀ key, params out !! key
           = match ({[ "a" := 2%Z; "b" := 3%Z ]} : gmap string Z) !! key with
             | Some v => Some v
             | None => ({[ "a" := 1%Z ]} : gmap string Z) !! key
             end.
Proof.
  destruct (split PrimFloat.eqb (scenario_events {[ "a" := 1%Z ]})
              (scenario_service {[ "a" := 2%Z; "b" := 3%Z ]}) ∅)
    as [out|e] eqn:Hcall; [|vm_compute in Hcall; discriminate].
  exists out. split; [reflexivity|].
  destruct (params_merged PrimFloat.eqb _ _ _ out {[ "a" := 1%Z ]} Hcall)
    as [Hunion Hkeys]; [vm_compute; reflexivity|].
  split; [|exact Hkeys]. rewrite Hunion. vm_compute. reflexivity.
Defined.

(** ** The scenario of the spec *)

Section Scenario.
Context {pvalue : Type}.
Variable get_binning :
  gmap string (entry float pvalue (ndarray float)) → result (list float * list float).
Variable get_params :
  gmap string (entry float pvalue (ndarray float)) →
  PIDService float pvalue (ndarray float) →
  gmap string pvalue → gmap string pvalue.
Variable add_params :
  gmap string pvalue → gmap string pvalue → result (gmap string pvalue).

(** C2 (concrete scenario).  Four categories with a 2x2 map of ones,
    ebins = [1, 10, 100], czbins = [-1, 0, 1], and the weights 0.7 and 0.3
    for every category: the call returns a trck map with 2.8 in every cell
    and a cscd map with 1.2 in every cell.  The numbers are binary64 and the
    sums are the rounded ones; the helpers return what they return. *)
Theorem concrete_scenario (p pid_p kwargs : gmap string pvalue) bins merged :
  get_binning (scenario_events p) = Ok bins →
  add_params (get_params (scenario_events p) (scenario_service pid_p) kwargs) p
    = Ok merged →
  get_pid_maps get_binning get_params add_params
    (scenario_events p) (scenario_service pid_p) kwargs
  = Ok {| trck := {| ebins := bins.1; czbins := bins.2;
                     map_ := [[2.8; 2.8]; [2.8; 2.8]]%float |};
          cscd := {| ebins := bins.1; czbins := bins.2;
                     map_ := [[1.2; 1.2]; [1.2; 1.2]]%float |};
          params := merged |}.
Proof.
  intros Hbins Hmerged. apply get_pid_maps_Ok.
  exists bins, [[1; 1]; [1; 1]]%float, p, merged,
    ([[2.8; 2.8]; [2.8; 2.8]]%float, [[1.2; 1.2]; [1.2; 1.2]]%float).
  split; [exact Hbins|]. split; [vm_compute; reflexivity|].
  split; [vm_compute; reflexivity|]. split; [exact Hmerged|].
  split; [vm_compute; reflexivity|reflexivity].
Qed.
End Scenario.

Lemma concrete_scenario_witness :
  split PrimFloat.eqb (scenario_events (∅ : gmap string Z)) (scenario_service ∅) ∅
  = Ok {| trck := {| ebins := [1; 10; 100]%float; czbins := [-1; 0; 1]%float;
                     map_ := [[2.8; 2.8]; [2.8; 2.8]]%float |};
          cscd := {| ebins := [1; 10; 100]%float; czbins := [-1; 0; 1]%float;
                     map_ := [[1.2; 1.2]; [1.2; 1.2]]%float |};
          params := ∅ |}.
Proof.
  apply (concrete_scenario (Spec.get_binning PrimFloat.eqb) Spec.get_params
           Spec.add_params ∅ ∅ ∅ ([1; 10; 100]%float, [-1; 0; 1]%float) ∅);
    vm_compute; reflexivity.
Defined.

(** ** The store *)

Section StoreFacts.
Context {num pvalue : Type} `{Numeric num}.
Variable get_binning :
  gmap string (entry num pvalue (ndarray num)) → result (list num * list num).
Variable get_params :
  gmap string (entry num pvalue (ndarray num)) →
  PIDService num pvalue (ndarray num) →
  gmap string pvalue → gmap string pvalue.
Variable add_params :
  gmap string pvalue → gmap string pvalue → result (gmap string pvalue).
Implicit Types (σ : list (ndarray num)) (l n : nat).
Implicit Types (reco_events : gmap string (entry num pvalue nat)).
Implicit Types (pid_dict : gmap string (gmap string (weight num nat))).

Lemma preserves_refl n σ : preserves n σ σ.
Proof. by split. Qed.

Lemma preserves_trans n σ1 σ2 σ3 :
  preserves n σ1 σ2 → preserves n σ2 σ3 → preserves n σ1 σ3.
Proof.
  intros [Hlen1 H1] [Hlen2 H2]. split; [lia|].
  intros l Hl. by rewrite H2, H1.
Qed.

Lemma preserves_alloc n σ a : n ≤ length σ → preserves n σ (σ ++ [a]).
Proof.
  intros Hn. split; [rewrite length_app; lia|].
  intros l Hl. apply lookup_app_l. lia.
Qed.

Lemma preserves_write n σ l a : n ≤ l → preserves n σ (<[l := a]> σ).
Proof.
  intros Hn. split; [by rewrite length_insert|].
  intros l' Hl'. apply list_lookup_insert_ne. lia.
Qed.

Lemma preserves_deref n σ σ' l : preserves n σ σ' → l < n → deref σ' l = deref σ l.
Proof. intros [_ Hp] Hl. unfold deref. by rewrite Hp. Qed.

(** The three operations on array objects, spelled out. *)
Lemma zeros_like_st_run l σ :
  zeros_like_st l σ = (Ok (length σ), σ ++ [zeros_like (deref σ l)]).
Proof. reflexivity. Qed.

Lemma mul_weight_st_run l (w : weight num nat) σ :
  mul_weight_st l w σ
  = match mul_weight (deref σ l) (snapshot_weight σ w) with
    | Ok r => (Ok (length σ), σ ++ [r])
    | Err e => (Err e, σ)
    end.
Proof.
  unfold mul_weight_st, mbind, st_bind, load, view, lift, alloc.
  by destruct (mul_weight _ _).
Qed.

Lemma iadd_st_run (out x : nat) σ :
  iadd_st out x σ
  = match iadd (deref σ out) (deref σ x) with
    | Ok r => (Ok tt, <[out := r]> σ)
    | Err e => (Err e, σ)
    end.
Proof.
  unfold iadd_st, mbind, st_bind, load, lift, write.
  by destruct (iadd _ _).
Qed.

(** One pass of the loop writes the two output objects only. *)
Lemma pid_step_st_preserves n reco_events pid_dict (acc : nat * nat) flav σ :
  n ≤ length σ → n ≤ acc.1 → n ≤ acc.2 →
  preserves n σ (pid_step_st reco_events pid_dict acc flav σ).2.
Proof.
  intros Hn Ht Hc. unfold pid_step_st, mbind, st_bind, lift.
  destruct (reco_map reco_events flav) as [ev|]; [|apply preserves_refl].
  destruct (pid_weight pid_dict flav "trck") as [wt|]; [|apply preserves_refl].
  rewrite mul_weight_st_run.
  destruct (mul_weight _ _) as [m1|]; [|apply preserves_refl].
  destruct (pid_weight pid_dict flav "cscd") as [wc|];
    [|by apply preserves_alloc].
  rewrite mul_weight_st_run.
  destruct (mul_weight _ _) as [m2|]; [|by apply preserves_alloc].
  assert (preserves n σ ((σ ++ [m1]) ++ [m2])) as Hσ2.
  { eapply preserves_trans; [by apply preserves_alloc|].
    apply preserves_alloc. rewrite length_app. lia. }
  rewrite iadd_st_run. destruct (iadd _ _) as [t'|]; [|exact Hσ2].
  rewrite iadd_st_run. destruct (iadd _ _) as [c'|].
  - eapply preserves_trans; [exact Hσ2|].
    apply (preserves_trans n _ (<[acc.1 := t']> ((σ ++ [m1]) ++ [m2])));
      by apply preserves_write.
  - eapply preserves_trans; [exact Hσ2|]. by apply preserves_write.
Qed.

Lemma pid_loop_st_preserves n reco_events pid_dict flavs (acc : nat * nat) σ :
  n ≤ length σ → n ≤ acc.1 → n ≤ acc.2 →
  preserves n σ (pid_loop_st reco_events pid_dict flavs acc σ).2.
Proof.
  revert σ. induction flavs as [|flav rest IH]; intros σ Hn Ht Hc.
  { apply preserves_refl. }
  simpl. unfold mbind, st_bind.
  pose proof (pid_step_st_preserves n reco_events pid_dict acc flav σ Hn Ht Hc)
    as Hstep.
  destruct (pid_step_st reco_events pid_dict acc flav σ) as [[[]|e] σ1];
    simpl in Hstep; [|exact Hstep].
  eapply preserves_trans; [exact Hstep|]. apply IH; [|done..].
  destruct Hstep as [Hlen _]. lia.
Qed.
End StoreFacts.

Section Frame.
Context {num pvalue : Type} `{Numeric num}.
Variable get_binning :
  gmap string (entry num pvalue (ndarray num)) → result (list num * list num).
Variable get_params :
  gmap string (entry num pvalue (ndarray num)) →
  PIDService num pvalue (ndarray num) →
  gmap string pvalue → gmap string pvalue.
Variable add_params :
  gmap string pvalue → gmap string pvalue → result (gmap string pvalue).
Implicit Types (σ : list (ndarray num)).
Implicit Types (reco_events : gmap string (entry num pvalue nat)).
Implicit Types (pid_service : PIDService num pvalue nat).

(** The call allocates the two output maps first and then only grows the
    store and writes these two. *)
Lemma get_pid_maps_st_run reco_events pid_service kwargs σ :
  let run := get_pid_maps_st get_binning get_params add_params
               reco_events pid_service kwargs σ in
  preserves (length σ) σ run.2 ∧
  ∀ out, run.1 = Ok out →
    map_ (trck out) = length σ ∧ map_ (cscd out) = S (length σ) ∧
    S (length σ) < length run.2.
Proof.
  unfold get_pid_maps_st, mbind, st_bind, view, lift. cbn -[pid_loop_st].
  destruct (get_binning _) as [bins|]; [|by split; [apply preserves_refl|]].
  destruct (reco_map reco_events "nue_cc") as [nue|];
    [|by split; [apply preserves_refl|]].
  rewrite !zeros_like_st_run.
  set (σ2 := (σ ++ [zeros_like (deref σ nue)]) ++ _).
  assert (length σ2 = S (S (length σ))) as Hlen.
  { unfold σ2. rewrite !length_app. cbn [length]. lia. }
  assert (preserves (length σ) σ σ2) as Hσ2.
  { split; [lia|]. intros l Hl. unfold σ2.
    rewrite <- app_assoc. by apply lookup_app_l. }
  destruct (reco_params reco_events) as [p|]; [|by split].
  destruct (add_params _ p) as [merged|]; [|by split].
  rewrite length_app. cbn [length]. rewrite Nat.add_1_r.
  pose proof (pid_loop_st_preserves (length σ) reco_events (get_maps pid_service)
                flavours (length σ, S (length σ)) σ2) as Hloop.
  cbn [fst snd] in Hloop.
  destruct (pid_loop_st _ _ _ _ σ2) as [[[]|e] σ3]; cbn [fst snd] in *.
  - assert (preserves (length σ) σ2 σ3) as Hσ3 by (apply Hloop; lia).
    split; [by eapply preserves_trans|].
    intros out [= <-]. cbn. destruct Hσ3 as [Hlen3 _]. lia.
  - split; [|done]. eapply preserves_trans; [exact Hσ2|]. apply Hloop; lia.
Qed.

(** C9 (the inputs are not mutated).  Whatever the store holds before the
    call (the maps of the input, the arrays of the PID table, anything else)
    is unchanged after it, and the trck and cscd maps of the result are two
    different objects that did not exist before.  The dictionaries and the
    bin edges are never written: the code has no assignment into them. *)
Theorem inputs_not_mutated reco_events pid_service kwargs σ :
  let run := get_pid_maps_st get_binning get_params add_params
               reco_events pid_service kwargs σ in
  (∀ l a, σ !! l = Some a → run.2 !! l = Some a) ∧
  ∀ out, run.1 = Ok out →
    σ !! map_ (trck out) = None ∧ σ !! map_ (cscd out) = None ∧
    is_Some (run.2 !! map_ (trck out)) ∧ is_Some (run.2 !! map_ (cscd out)) ∧
    map_ (trck out) ≠ map_ (cscd out).
Proof.
  intros run.
  destruct (get_pid_maps_st_run reco_events pid_service kwargs σ)
    as [[Hlen Hkeep] Hout].
  fold run in Hlen, Hkeep, Hout. split.
  - intros l a Hl. rewrite Hkeep; [done|]. by eapply lookup_lt_Some.
  - intros out Hrun. destruct (Hout out Hrun) as (-> & -> & Hlt).
    split; [apply lookup_ge_None; lia|]. split; [apply lookup_ge_None; lia|].
    split; [apply lookup_lt_is_Some; lia|]. split; [apply lookup_lt_is_Some; lia|].
    lia.
Qed.
End Frame.

Lemma inputs_not_mutated_witness :
  let run := get_pid_maps_st (Spec.get_binning Z.eqb) Spec.get_params
               Spec.add_params demo_events_ref demo_service_ref ∅ demo_store in
  (∀ l a, demo_store !! l = Some a → run.2 !! l = Some a) ∧
  ∀ out, run.1 = Ok out →
    demo_store !! map_ (trck out) = None ∧ demo_store !! map_ (cscd out) = None ∧
    is_Some (run.2 !! map_ (trck out)) ∧ is_Some (run.2 !! map_ (cscd out)) ∧
    map_ (trck out) ≠ map_ (cscd out).
Proof.
  exact (inputs_not_mutated (Spec.get_binning Z.eqb) Spec.get_params
           Spec.add_params demo_events_ref demo_service_ref ∅ demo_store).
Defined.

(** ** The store-passing call computes what the call over values computes *)

Section Refinement.
Context {num pvalue : Type} `{Numeric num}.
Variable get_binning :
  gmap string (entry num pvalue (ndarray num)) → result (list num * list num).
Variable get_params :
  gmap string (entry num pvalue (ndarray num)) →
  PIDService num pvalue (ndarray num) →
  gmap string pvalue → gmap string pvalue.
Variable add_params :
  gmap string pvalue → gmap string pvalue → result (gmap string pvalue).
Implicit Types (σ : list (ndarray num)) (l n : nat).
Implicit Types (reco_events : gmap string (entry num pvalue nat)).
Implicit Types (pid_service : PIDService num pvalue nat).

Lemma deref_app_l σ σ' l : l < length σ → deref (σ ++ σ') l = deref σ l.
Proof. intros Hl. unfold deref. by rewrite lookup_app_l. Qed.

Lemma deref_app_here σ (a : ndarray num) : deref (σ ++ [a]) (length σ) = a.
Proof. unfold deref. by rewrite list_lookup_middle. Qed.

Lemma deref_insert_eq σ l (a : ndarray num) :
  l < length σ → deref (<[l := a]> σ) l = a.
Proof. intros Hl. unfold deref. by rewrite list_lookup_insert_eq. Qed.

Lemma deref_insert_ne σ l l' (a : ndarray num) :
  l ≠ l' → deref (<[l := a]> σ) l' = deref σ l'.
Proof. intros Hl. unfold deref. by rewrite list_lookup_insert_ne. Qed.

Lemma reco_map_snapshot σ reco_events flav :
  reco_map (snapshot_events σ reco_events) flav
  = deref σ <$> reco_map reco_events flav.
Proof.
  unfold reco_map, getitem, snapshot_events. rewrite lookup_fmap.
  destruct (reco_events !! flav) as [[t|p]|]; done.
Qed.

Lemma reco_params_snapshot σ reco_events :
  reco_params (snapshot_events σ reco_events) = reco_params reco_events.
Proof.
  unfold reco_params, getitem, snapshot_events. rewrite lookup_fmap.
  destruct (reco_events !! "params") as [[t|p]|]; done.
Qed.

Lemma pid_weight_snapshot σ pid_service flav sig :
  pid_weight (get_maps (snapshot_service σ pid_service)) flav sig
  = snapshot_weight σ <$> pid_weight (get_maps pid_service) flav sig.
Proof.
  unfold pid_weight, getitem. simpl. rewrite lookup_fmap.
  destruct (get_maps pid_service !! flav) as [d|]; [|done]. simpl.
  rewrite lookup_fmap. by destruct (d !! sig).
Qed.

Lemma snapshot_weight_preserves n σ σ' (w : weight num nat) :
  preserves n σ σ' → (∀ l, w = Array l → l < n) →
  snapshot_weight σ' w = snapshot_weight σ w.
Proof.
  intros Hp Hw. destruct w as [x|l]; [done|]. simpl.
  by rewrite (preserves_deref n σ σ') by auto.
Qed.

Lemma reco_map_below n reco_events pid_dict flav l :
  refs_below n reco_events pid_dict → reco_map reco_events flav = Ok l → l < n.
Proof.
  intros [Hre _] Hl. unfold reco_map in Hl.
  apply bind_Ok in Hl as (e & He & Hl). apply getitem_Ok in He.
  destruct e as [t|p]; [|done]. injection Hl as <-. by eapply Hre.
Qed.

Lemma pid_weight_below n reco_events (pid_dict : gmap string (gmap string (weight num nat)))
    flav sig w l :
  refs_below n reco_events pid_dict →
  pid_weight pid_dict flav sig = Ok w → w = Array l → l < n.
Proof.
  intros [_ Hpid] Hw ->. unfold pid_weight in Hw.
  apply bind_Ok in Hw as (d & Hd & Hw). apply getitem_Ok in Hd, Hw.
  by eapply Hpid.
Qed.

Lemma pid_step_st_run reco_events
    (pid_dict : gmap string (gmap string (weight num nat))) (acc : nat * nat) flav σ :
  pid_step_st reco_events pid_dict acc flav σ
  = match reco_map reco_events flav with
    | Err e => (Err e, σ)
    | Ok ev =>
    match pid_weight pid_dict flav "trck" with
    | Err e => (Err e, σ)
    | Ok wt =>
    match mul_weight (deref σ ev) (snapshot_weight σ wt) with
    | Err e => (Err e, σ)
    | Ok m1 =>
    match pid_weight pid_dict flav "cscd" with
    | Err e => (Err e, σ ++ [m1])
    | Ok wc =>
    match mul_weight (deref (σ ++ [m1]) ev) (snapshot_weight (σ ++ [m1]) wc) with
    | Err e => (Err e, σ ++ [m1])
    | Ok m2 =>
    match iadd (deref ((σ ++ [m1]) ++ [m2]) acc.1)
               (deref ((σ ++ [m1]) ++ [m2]) (length σ)) with
    | Err e => (Err e, (σ ++ [m1]) ++ [m2])
    | Ok t' =>
    match iadd (deref (<[acc.1 := t']> ((σ ++ [m1]) ++ [m2])) acc.2)
               (deref (<[acc.1 := t']> ((σ ++ [m1]) ++ [m2])) (length (σ ++ [m1]))) with
    | Err e => (Err e, <[acc.1 := t']> ((σ ++ [m1]) ++ [m2]))
    | Ok c' => (Ok tt, <[acc.2 := c']> (<[acc.1 := t']> ((σ ++ [m1]) ++ [m2])))
    end end end end end end end.
Proof.
  unfold pid_step_st, mbind, st_bind, lift.
  destruct (reco_map reco_events flav) as [ev|]; [|done].
  destruct (pid_weight pid_dict flav "trck") as [wt|]; [|done].
  rewrite mul_weight_st_run. destruct (mul_weight _ _) as [m1|]; [|done].
  destruct (pid_weight pid_dict flav "cscd") as [wc|]; [|done].
  rewrite mul_weight_st_run. destruct (mul_weight _ _) as [m2|]; [|done].
  rewrite iadd_st_run. destruct (iadd _ _) as [t'|]; [|done].
  rewrite iadd_st_run. by destruct (iadd _ _) as [c'|].
Qed.

Lemma pid_step_st_refines n σ0 σ reco_events pid_service (t c : nat) flav :
  refs_below n reco_events (get_maps pid_service) → preserves n σ0 σ →
  n ≤ t → t < length σ → n ≤ c → c < length σ → t ≠ c →
  let run := pid_step_st reco_events (get_maps pid_service) (t, c) flav σ in
  (λ _ : unit, (deref run.2 t, deref run.2 c)) <$> run.1
  = pid_step (snapshot_events σ0 reco_events)
      (get_maps (snapshot_service σ0 pid_service)) (deref σ t, deref σ c) flav.
Proof.
  intros Hrefs Hσ Hnt Ht Hnc Hc Htc. cbn zeta.
  rewrite pid_step_st_run. unfold pid_step.
  rewrite reco_map_snapshot, !pid_weight_snapshot. cbn [fst snd].
  destruct (reco_map reco_events flav) as [ev|] eqn:Hev; [|done].
  pose proof (reco_map_below _ _ _ _ _ Hrefs Hev) as Hevn.
  destruct (pid_weight (get_maps pid_service) flav "trck") as [wt|] eqn:Hwt; [|done].
  rewrite (preserves_deref n σ0 σ), (snapshot_weight_preserves n σ0 σ wt);
    [|done|by eauto using pid_weight_below|done..].
  cbn [fmap result_fmap mbind result_bind].
  destruct (mul_weight (deref σ0 ev) (snapshot_weight σ0 wt)) as [m1|]; [|done].
  destruct (pid_weight (get_maps pid_service) flav "cscd") as [wc|] eqn:Hwc; [|done].
  assert (preserves n σ0 (σ ++ [m1])) as Hσ1.
  { eapply preserves_trans; [done|]. apply preserves_alloc. lia. }
  rewrite (preserves_deref n σ0 (σ ++ [m1])),
    (snapshot_weight_preserves n σ0 (σ ++ [m1]) wc);
    [|done|by eauto using pid_weight_below|done..].
  cbn [fmap result_fmap mbind result_bind].
  destruct (mul_weight (deref σ0 ev) (snapshot_weight σ0 wc)) as [m2|]; [|done].
  rewrite !(deref_app_l _ _ t) by (rewrite ?length_app; lia).
  rewrite (deref_app_l (σ ++ [m1]) [m2] (length σ)) by (rewrite length_app; simpl; lia).
  rewrite deref_app_here.
  destruct (iadd (deref σ t) m1) as [t'|]; [|done].
  rewrite (deref_insert_ne _ t c) by done.
  rewrite (deref_insert_ne _ t (length (σ ++ [m1])))
    by (rewrite length_app; simpl; lia).
  rewrite deref_app_here.
  rewrite !(deref_app_l _ _ c) by (rewrite ?length_app; lia).
  cbn [fmap result_fmap mbind result_bind].
  destruct (iadd (deref σ c) m2) as [c'|]; [|done].
  cbn [fmap result_fmap fst snd].
  rewrite (deref_insert_ne _ c t) by done.
  rewrite !deref_insert_eq by (rewrite ?length_insert, !length_app; lia).
  done.
Qed.

Lemma pid_loop_st_cons reco_events
    (pid_dict : gmap string (gmap string (weight num nat))) flav rest (acc : nat * nat) σ :
  pid_loop_st reco_events pid_dict (flav :: rest) acc σ
  = match pid_step_st reco_events pid_dict acc flav σ with
    | (Ok _, σ') => pid_loop_st reco_events pid_dict rest acc σ'
    | (Err e, σ') => (Err e, σ')
    end.
Proof. reflexivity. Qed.

Lemma pid_loop_st_refines n σ0 reco_events pid_service (t c : nat) flavs σ :
  refs_below n reco_events (get_maps pid_service) → preserves n σ0 σ →
  n ≤ t → t < length σ → n ≤ c → c < length σ → t ≠ c →
  let run := pid_loop_st reco_events (get_maps pid_service) flavs (t, c) σ in
  (λ _ : unit, (deref run.2 t, deref run.2 c)) <$> run.1
  = pid_loop (snapshot_events σ0 reco_events)
      (get_maps (snapshot_service σ0 pid_service)) flavs (deref σ t, deref σ c).
Proof.
  intros Hrefs. revert σ.
  induction flavs as [|flav rest IH]; intros σ Hσ Hnt Ht Hnc Hc Htc; [done|].
  cbn zeta. rewrite pid_loop_st_cons. cbn [pid_loop].
  pose proof (pid_step_st_refines n σ0 σ reco_events pid_service t c flav
                Hrefs Hσ Hnt Ht Hnc Hc Htc) as Hstep.
  pose proof (pid_step_st_preserves n reco_events (get_maps pid_service)
                (t, c) flav σ) as Hkeep.
  cbn zeta in Hstep. cbn [fst snd] in Hkeep.
  destruct (pid_step_st reco_events (get_maps pid_service) (t, c) flav σ)
    as [[[]|e] σ1]; cbn [fst snd fmap result_fmap] in Hstep, Hkeep;
    rewrite <- Hstep; [|done].
  cbn [mbind result_bind].
  assert (preserves n σ σ1) as Hσ1 by (apply Hkeep; lia).
  apply IH; [by eapply preserves_trans|done|destruct Hσ1; lia|done|
             destruct Hσ1; lia|done].
Qed.

Lemma get_pid_maps_st_eq reco_events pid_service kwargs σ :
  get_pid_maps_st get_binning get_params add_params reco_events pid_service kwargs σ
  = match get_binning (snapshot_events σ reco_events) with
    | Err e => (Err e, σ)
    | Ok bins =>
    match reco_map reco_events "nue_cc" with
    | Err e => (Err e, σ)
    | Ok nue =>
    let σ1 := σ ++ [zeros_like (deref σ nue)] in
    let σ2 := σ1 ++ [zeros_like (deref σ1 nue)] in
    match reco_params reco_events with
    | Err e => (Err e, σ2)
    | Ok p =>
    match add_params (get_params (snapshot_events σ reco_events)
                        (snapshot_service σ pid_service) kwargs) p with
    | Err e => (Err e, σ2)
    | Ok merged =>
    match pid_loop_st reco_events (get_maps pid_service) flavours
            (length σ, S (length σ)) σ2 with
    | (Err e, σ3) => (Err e, σ3)
    | (Ok _, σ3) =>
        (Ok {| trck := {| map_ := length σ; czbins := bins.2; ebins := bins.1 |};
               cscd := {| map_ := S (length σ); czbins := bins.2; ebins := bins.1 |};
               params := merged |}, σ3)
    end end end end end.
Proof.
  unfold get_pid_maps_st, mbind, st_bind, view, lift. cbn -[pid_loop_st].
  destruct (get_binning _) as [bins|]; [|done].
  destruct (reco_map reco_events "nue_cc") as [nue|]; [|done].
  rewrite !zeros_like_st_run.
  destruct (reco_params reco_events) as [p|]; [|done].
  destruct (add_params _ p) as [merged|]; [|done].
  rewrite length_app. cbn [length]. rewrite Nat.add_1_r.
  by destruct (pid_loop_st _ _ _ _ _) as [[[]|e] σ3].
Qed.

(** On a store that holds every array the input refers to, the result of
    the store-passing call, read in the final store, is the result of the
    call over values on what the input denotes. *)
Lemma get_pid_maps_st_refines reco_events pid_service kwargs σ :
  refs_below (length σ) reco_events (get_maps pid_service) →
  let run := get_pid_maps_st get_binning get_params add_params
               reco_events pid_service kwargs σ in
  snapshot_result run.2 <$> run.1
  = get_pid_maps get_binning get_params add_params
      (snapshot_events σ reco_events) (snapshot_service σ pid_service) kwargs.
Proof.
  intros Hrefs. cbn zeta. rewrite get_pid_maps_st_eq. unfold get_pid_maps.
  rewrite reco_map_snapshot, reco_params_snapshot.
  destruct (get_binning _) as [bins|]; [|done]. cbn -[pid_loop pid_loop_st].
  destruct (reco_map reco_events "nue_cc") as [nue|] eqn:Hnue; [|done].
  cbn -[pid_loop pid_loop_st].
  destruct (reco_params reco_events) as [p|]; [|done]. cbn -[pid_loop pid_loop_st].
  destruct (add_params _ p) as [merged|]; [|done]. cbn -[pid_loop pid_loop_st].
  pose proof (reco_map_below _ _ _ _ _ Hrefs Hnue) as Hnuen.
  rewrite (deref_app_l σ _ nue) by done.
  set (σ2 := (σ ++ [zeros_like (deref σ nue)]) ++ _).
  assert (length σ2 = S (S (length σ))) as Hlen.
  { unfold σ2. rewrite !length_app. cbn [length]. lia. }
  assert (preserves (length σ) σ σ2) as Hσ2.
  { split; [lia|]. intros l Hl. unfold σ2.
    rewrite <- app_assoc. by apply lookup_app_l. }
  assert (deref σ2 (length σ) = zeros_like (deref σ nue)) as Ht.
  { unfold σ2. rewrite deref_app_l by (rewrite length_app; simpl; lia).
    apply deref_app_here. }
  assert (deref σ2 (S (length σ)) = zeros_like (deref σ nue)) as Hc.
  { unfold σ2.
    replace (S (length σ)) with (length (σ ++ [zeros_like (deref σ nue)]))
      by (rewrite length_app; simpl; lia).
    apply deref_app_here. }
  pose proof (pid_loop_st_refines (length σ) σ reco_events pid_service
                (length σ) (S (length σ)) flavours σ2 Hrefs Hσ2) as Hloop.
  cbn zeta in Hloop. rewrite Ht, Hc in Hloop.
  cbn [get_maps snapshot_service] in Hloop.
  rewrite <- Hloop by lia.
  by destruct (pid_loop_st _ _ _ _ σ2) as [[[]|e] σ3].
Qed.
End Refinement.

Lemma demo_refs_below :
  refs_below (length demo_store) demo_events_ref (get_maps demo_service_ref).
Proof.
  split.
  - intros flav t Hl. unfold demo_events_ref in Hl.
    repeat (rewrite lookup_insert in Hl; case_decide;
            [injection Hl as <-; cbn; lia|]).
    rewrite lookup_singleton in Hl. by case_decide.
  - intros flav d sig l Hd Hl. cbn in Hd.
    repeat (rewrite lookup_insert in Hd; case_decide;
            [injection Hd as <-;
             repeat (rewrite lookup_insert in Hl; case_decide;
                     [injection Hl as <- || discriminate Hl; cbn; lia|]);
             rewrite lookup_singleton in Hl; case_decide;
             [injection Hl as <- || discriminate Hl; cbn; lia|done]|]).
    rewrite lookup_singleton in Hd. case_decide; [|done].
    injection Hd as <-.
    repeat (rewrite lookup_insert in Hl; case_decide;
            [injection Hl as <- || discriminate Hl; cbn; lia|]).
    rewrite lookup_singleton in Hl. by case_decide.
Defined.

Lemma get_pid_maps_st_refines_witness :
  let run := get_pid_maps_st (Spec.get_binning Z.eqb) Spec.get_params
               Spec.add_params demo_events_ref demo_service_ref ∅ demo_store in
  snapshot_result run.2 <$> run.1
  = get_pid_maps (Spec.get_binning Z.eqb) Spec.get_params Spec.add_params
      (snapshot_events demo_store demo_events_ref)
      (snapshot_service demo_store demo_service_ref) ∅.
Proof.
  exact (get_pid_maps_st_refines (Spec.get_binning Z.eqb) Spec.get_params
           Spec.add_params demo_events_ref demo_service_ref ∅ demo_store
           demo_refs_below).
Defined.

(** * Every returning call *)

(** ** Broadcasting *)

Section BroadcastFacts.
Context {num pvalue : Type} `{Numeric num}.
Implicit Types (a b m : ndarray num) (w : weight num (ndarray num)).
Implicit Types (f : nat → nat → num).

Lemma broadcast_dim_one n k : broadcast_dim n k = Some 1 → n = 1 ∧ k = 1.
Proof. unfold broadcast_dim. repeat case_decide; intros [=]; lia. Qed.

Lemma broadcast_dim_zero n k : broadcast_dim n k = Some 0 → n = 0 ∨ k = 0.
Proof. unfold broadcast_dim. repeat case_decide; intros [=]; lia. Qed.

Lemma broadcast_dim_zero_l k r : broadcast_dim 0 k = Some r → r = 0.
Proof. unfold broadcast_dim. repeat case_decide; intros [=]; lia. Qed.

Lemma broadcast_dim_zero_r n r : broadcast_dim n 0 = Some r → r = 0.
Proof. unfold broadcast_dim. repeat case_decide; intros [=]; lia. Qed.

(** [x] broadcasts to an axis of length [r]: it has that length or length 1. *)
Lemma broadcast_dim_into r k : broadcast_dim r k = Some r → k = r ∨ k = 1.
Proof. unfold broadcast_dim. repeat case_decide; intros [=]; lia. Qed.

Lemma broadcast_shapes_Some (s s' t : nat * nat) :
  broadcast_shapes s s' = Some t ↔
  broadcast_dim s.1 s'.1 = Some t.1 ∧ broadcast_dim s.2 s'.2 = Some t.2.
Proof.
  unfold broadcast_shapes. destruct t as [r c]. simpl.
  destruct (broadcast_dim s.1 s'.1) as [r'|]; simpl; [|by split; [|intros []]].
  destruct (broadcast_dim s.2 s'.2) as [c'|]; simpl; [|by split; [|intros []]].
  split; [by intros [= -> ->]|by intros [[= ->] [= ->]]].
Qed.

Lemma ncols_no_rows a : nrows a = 0 → ncols a = 0.
Proof. by destruct a. Qed.

(** The product of two arrays has the broadcast shape. *)
Lemma shape_tabulate2_broadcast a b r c f :
  broadcast_shapes (shape a) (shape b) = Some (r, c) →
  shape (tabulate2 r c f) = (r, c).
Proof.
  intros [Hr Hc]%broadcast_shapes_Some. simpl in Hr, Hc.
  unfold shape. rewrite nrows_tabulate2, ncols_tabulate2.
  case_decide as Hr0; [|done]. subst r. f_equal.
  destruct (broadcast_dim_zero _ _ Hr) as [Ha|Hb].
  - rewrite (ncols_no_rows a Ha) in Hc. symmetry. by eapply broadcast_dim_zero_l.
  - rewrite (ncols_no_rows b Hb) in Hc. symmetry. by eapply broadcast_dim_zero_r.
Qed.

Lemma shape_tabulate2_same a f :
  shape (tabulate2 (nrows a) (ncols a) f) = shape a.
Proof.
  unfold shape. rewrite nrows_tabulate2, ncols_tabulate2.
  case_decide as Hr0; [|done]. by rewrite (ncols_no_rows a Hr0), Hr0.
Qed.

Lemma mul_weight_Ok a w m :
  mul_weight a w = Ok m ↔
  ∃ s, product_shape a w = Some s ∧
       m = tabulate2 s.1 s.2 (λ i j, bget a i j ⊗ weight_at w i j).
Proof.
  destruct w as [x|b]; simpl.
  - split; [intros [= <-]; by eexists|by intros (s & [= <-] & ->)].
  - unfold ndarray_mul. destruct (broadcast_shapes _ _) as [[r c]|]; split.
    + intros [= <-]. by exists (r, c).
    + by intros (s & [= <-] & ->).
    + done.
    + by intros (s & [=] & _).
Qed.

Lemma mul_weight_shape a w m s :
  mul_weight a w = Ok m → product_shape a w = Some s → shape m = s.
Proof.
  intros (s' & Hs' & ->)%mul_weight_Ok Hs. rewrite Hs in Hs'. injection Hs' as <-.
  destruct w as [x|b]; simpl in Hs.
  - injection Hs as <-. apply shape_tabulate2_same.
  - destruct s as [r c]. by eapply shape_tabulate2_broadcast.
Qed.


Lemma iadd_Ok (out x out' : ndarray num) :
  iadd out x = Ok out' ↔
  broadcast_shapes (shape out) (shape x) = Some (shape out) ∧
  out' = tabulate2 (nrows out) (ncols out) (λ i j, bget out i j ⊕ bget x i j).
Proof.
  unfold iadd. case_decide; split.
  - by intros [= <-].
  - by intros [_ ->].
  - done.
  - by intros [? _].
Qed.

Lemma iadd_shape (out x out' : ndarray num) :
  iadd out x = Ok out' → shape out' = shape out ∧ is_array out'.
Proof.
  intros [_ ->]%iadd_Ok. split; [apply shape_tabulate2_same|apply is_array_tabulate2].
Qed.


(** A broadcast read of an operand does not change when the index is first
    taken through the broadcast of the result. *)
Lemma bget_through a r c i j :
  (r = 1 → nrows a = 1) → (c = 1 → ncols a = 1) →
  bget a (if decide (r = 1) then 0 else i) (if decide (c = 1) then 0 else j)
  = bget a i j.
Proof.
  intros Hr Hc. unfold bget.
  destruct (decide (r = 1)) as [Er|]; destruct (decide (c = 1)) as [Ec|];
    destruct (decide (nrows a = 1)), (decide (ncols a = 1));
    try done; try specialize (Hr Er); try specialize (Hc Ec); done.
Qed.

Lemma weight_at_through a w s i j :
  product_shape a w = Some s →
  weight_at w (if decide (s.1 = 1) then 0 else i) (if decide (s.2 = 1) then 0 else j)
  = weight_at w i j.
Proof.
  destruct w as [x|b]; simpl; [done|].
  intros [Hr Hc]%broadcast_shapes_Some. simpl in Hr, Hc.
  apply bget_through.
  - intros E. rewrite E in Hr. by apply broadcast_dim_one in Hr as [_ ?].
  - intros E. rewrite E in Hc. by apply broadcast_dim_one in Hc as [_ ?].
Qed.

Lemma event_through a w s i j :
  product_shape a w = Some s →
  bget a (if decide (s.1 = 1) then 0 else i) (if decide (s.2 = 1) then 0 else j)
  = bget a i j.
Proof.
  destruct w as [x|b]; simpl.
  - intros [= <-]. by apply bget_through.
  - intros [Hr Hc]%broadcast_shapes_Some. simpl in Hr, Hc.
    apply bget_through.
    + intros E. rewrite E in Hr. by apply broadcast_dim_one in Hr as [? _].
    + intros E. rewrite E in Hc. by apply broadcast_dim_one in Hc as [? _].
Qed.

(** What [+=] reads from a product at a cell of the output. *)
Lemma bget_product a w m (t : nat * nat) i j :
  mul_weight a w = Ok m → broadcast_shapes t (shape m) = Some t →
  i < t.1 → j < t.2 →
  bget m i j = bget a i j ⊗ weight_at w i j.
Proof.
  intros Hm Hinto Hi Hj.
  pose proof Hm as (s & Hs & Em)%mul_weight_Ok.
  pose proof (mul_weight_shape _ _ _ _ Hm Hs) as Hshape.
  rewrite Hshape in Hinto.
  apply broadcast_shapes_Some in Hinto as [Hr Hc].
  apply broadcast_dim_into in Hr, Hc.
  unfold bget at 1. unfold shape in Hshape.
  destruct s as [r' c']. injection Hshape as Hnr Hnc. cbn [fst snd] in *.
  rewrite Hnr, Hnc, Em. rewrite cell_tabulate2 by (case_decide; lia).
  cbn [default].
  pose proof (event_through a w _ i j Hs) as Ea.
  pose proof (weight_at_through a w _ i j Hs) as Ew.
  cbn [fst snd] in Ea, Ew. by rewrite Ea, Ew.
Qed.
End BroadcastFacts.

(** ** The loop, whatever the shapes *)

Section LoopAlways.
Context {num pvalue : Type} `{Numeric num}.
Implicit Types (reco_events : gmap string (entry num pvalue (ndarray num))).
Implicit Types (pid_dict : gmap string (gmap string (weight num (ndarray num)))).
Implicit Types (acc : ndarray num * ndarray num).

Lemma shape_zeros_like (a : ndarray num) : shape (zeros_like a) = shape a.
Proof. unfold shape. by rewrite nrows_zeros_like, ncols_zeros_like. Qed.

Lemma event_rate_Template reco_events flav t i j :
  reco_events !! flav = Some (Template t) →
  event_rate reco_events flav i j = bget (map_ t) i j.
Proof. unfold event_rate. by intros ->. Qed.

Lemma pid_at_weight pid_dict flav sig w i j :
  pid_dict !! flav ≫= (.!! sig) = Some w →
  pid_at pid_dict flav sig i j = weight_at w i j.
Proof. unfold pid_at. by intros ->. Qed.

(** One pass keeps the shapes of the two maps and adds, in every cell, the
    product of the event rate and the weight read there. *)
Lemma pid_step_cells reco_events pid_dict acc flav acc' :
  pid_step reco_events pid_dict acc flav = Ok acc' →
  (shape acc'.1 = shape acc.1 ∧ is_array acc'.1) ∧
  (shape acc'.2 = shape acc.2 ∧ is_array acc'.2) ∧
  (∀ i j, i < nrows acc.1 → j < ncols acc.1 →
     bget acc'.1 i j
     = bget acc.1 i j
       ⊕ event_rate reco_events flav i j ⊗ pid_at pid_dict flav "trck" i j) ∧
  (∀ i j, i < nrows acc.2 → j < ncols acc.2 →
     bget acc'.2 i j
     = bget acc.2 i j
       ⊕ event_rate reco_events flav i j ⊗ pid_at pid_dict flav "cscd" i j).
Proof.
  intros (ev & wt & wc & m1 & m2 & Hev & Hwt & Hm1 & Hwc & Hm2 & Ht & Hc)%pid_step_Ok.
  apply reco_map_Ok in Hev as (t & Hl & ->).
  apply pid_weight_Ok in Hwt, Hwc.
  split; [by eapply iadd_shape|]. split; [by eapply iadd_shape|].
  pose proof Ht as [Hinto1 Et]%iadd_Ok. pose proof Hc as [Hinto2 Ec]%iadd_Ok.
  split; intros i j Hi Hj.
  - rewrite Et, bget_tabulate2 by done.
    rewrite (bget_product _ _ _ (shape acc.1) i j Hm1 Hinto1) by done.
    by rewrite (event_rate_Template _ _ _ _ _ Hl), (pid_at_weight _ _ _ _ _ _ Hwt).
  - rewrite Ec, bget_tabulate2 by done.
    rewrite (bget_product _ _ _ (shape acc.2) i j Hm2 Hinto2) by done.
    by rewrite (event_rate_Template _ _ _ _ _ Hl), (pid_at_weight _ _ _ _ _ _ Hwc).
Qed.

Lemma pid_loop_cells reco_events pid_dict flavs acc acc' :
  pid_loop reco_events pid_dict flavs acc = Ok acc' →
  shape acc'.1 = shape acc.1 ∧ shape acc'.2 = shape acc.2 ∧
  (flavs ≠ [] → is_array acc'.1 ∧ is_array acc'.2) ∧
  (∀ i j, i < nrows acc.1 → j < ncols acc.1 →
     bget acc'.1 i j
     = accumulated reco_events pid_dict "trck" flavs (bget acc.1 i j) i j) ∧
  (∀ i j, i < nrows acc.2 → j < ncols acc.2 →
     bget acc'.2 i j
     = accumulated reco_events pid_dict "cscd" flavs (bget acc.2 i j) i j).
Proof.
  revert acc. induction flavs as [|flav rest IH]; intros acc Hloop.
  { injection Hloop as <-. by repeat split. }
  simpl in Hloop. apply bind_Ok in Hloop as (acc1 & Hstep & Hloop).
  apply pid_step_cells in Hstep as ([S1 A1] & [S2 A2] & C1 & C2).
  pose proof (IH _ Hloop) as (S1' & S2' & A' & C1' & C2').
  injection S1 as R1 L1. injection S2 as R2 L2.
  split; [by rewrite S1'; unfold shape; rewrite R1, L1|].
  split; [by rewrite S2'; unfold shape; rewrite R2, L2|].
  split.
  { intros _. destruct rest as [|flav' rest']; [|by apply A'].
    simpl in Hloop. by injection Hloop as <-. }
  split; intros i j Hi Hj; unfold accumulated in *; simpl.
  - rewrite C1' by lia. by rewrite C1.
  - rewrite C2' by lia. by rewrite C2.
Qed.
End LoopAlways.

Lemma demo_events_run :
  split Z.eqb demo_events demo_service ∅ = Ok demo_result.
Proof. vm_compute. reflexivity. Defined.

Lemma demo_events_b_run :
  split Z.eqb demo_events_b demo_service ∅ = Ok demo_result_b.
Proof. vm_compute. reflexivity. Defined.

Lemma demo_events_sum_run :
  split Z.eqb demo_events_sum demo_service ∅ = Ok demo_result_sum.
Proof. vm_compute. reflexivity. Defined.

Lemma row_events_run :
  split Z.eqb row_events demo_service ∅ = Ok row_result.
Proof. vm_compute. reflexivity. Defined.

(** ** The call, whatever the shapes *)

Section CallAlways.
Context {num pvalue : Type} `{Numeric num}.
Variable get_binning :
  gmap string (entry num pvalue (ndarray num)) → result (list num * list num).
Variable get_params :
  gmap string (entry num pvalue (ndarray num)) →
  PIDService num pvalue (ndarray num) →
  gmap string pvalue → gmap string pvalue.
Variable add_params :
  gmap string pvalue → gmap string pvalue → result (gmap string pvalue).
Implicit Types (reco_events : gmap string (entry num pvalue (ndarray num))).
Implicit Types (pid_service : PIDService num pvalue (ndarray num)).
Implicit Types (kwargs : gmap string pvalue).

(** The maps of a result, the loop that made them and the map they took
    their shape from. *)
Lemma get_pid_maps_Ok_loop reco_events pid_service kwargs out :
  get_pid_maps get_binning get_params add_params reco_events pid_service kwargs
    = Ok out →
  ∃ nue,
    reco_events !! "nue_cc" = Some (Template nue) ∧
    pid_loop reco_events (get_maps pid_service) flavours
      (zeros_like (map_ nue), zeros_like (map_ nue))
    = Ok (map_ (trck out), map_ (cscd out)).
Proof.
  intros (bins & a & p & merged & maps & _ & Hnue & _ & _ & Hloop & ->)%get_pid_maps_Ok.
  apply reco_map_Ok in Hnue as (nue & Hl & ->). exists nue.
  split; [done|]. simpl. by destruct maps.
Qed.

(** X2 (shape of the result).  Both maps of every returned result are
    rectangular and have the shape of the "nue_cc" map of the input: the
    maps start as [np.zeros_like] of it and [+=] keeps the shape of its
    left operand. *)
Theorem output_shape reco_events pid_service kwargs out :
  get_pid_maps get_binning get_params add_params reco_events pid_service kwargs
    = Ok out →
  ∃ nue,
    reco_events !! "nue_cc" = Some (Template nue) ∧
    shape (map_ (trck out)) = shape (map_ nue) ∧
    shape (map_ (cscd out)) = shape (map_ nue) ∧
    is_array (map_ (trck out)) ∧ is_array (map_ (cscd out)).
Proof.
  intros (nue & Hl & Hloop)%get_pid_maps_Ok_loop. exists nue. split; [done|].
  apply pid_loop_cells in Hloop as (S1 & S2 & Harr & _). simpl in S1, S2.
  rewrite shape_zeros_like in S1, S2.
  destruct Harr as [A1 A2]; [done|]. done.
Qed.

(** X3 (cells of the result).  In every returned result, the cell (i, j)
    of the trck map is 0 + e1*w1 + e2*w2 + e3*w3 + e4*w4, added in this
    order, where e is the event rate of "nue_cc", "numu_cc", "nutau_cc",
    "nuall_nc" and w the track weight of that category, each read at (i, j)
    as numpy broadcasts it; likewise the cscd map with the cascade weights.
    No law of arithmetic is used: the equation holds for rounded numbers. *)
Theorem returned_cells reco_events pid_service kwargs out i j :
  get_pid_maps get_binning get_params add_params reco_events pid_service kwargs
    = Ok out →
  i < nrows (map_ (trck out)) → j < ncols (map_ (trck out)) →
  let term sig flav :=
    event_rate reco_events flav i j ⊗ pid_at (get_maps pid_service) flav sig i j in
  cell (map_ (trck out)) i j
    = Some (zero ⊕ term "trck" "nue_cc" ⊕ term "trck" "numu_cc"
                 ⊕ term "trck" "nutau_cc" ⊕ term "trck" "nuall_nc") ∧
  cell (map_ (cscd out)) i j
    = Some (zero ⊕ term "cscd" "nue_cc" ⊕ term "cscd" "numu_cc"
                 ⊕ term "cscd" "nutau_cc" ⊕ term "cscd" "nuall_nc").
Proof.
  intros (nue & Hl & Hloop)%get_pid_maps_Ok_loop Hi Hj term.
  apply pid_loop_cells in Hloop as (S1 & S2 & Harr & C1 & C2).
  destruct Harr as [A1 A2]; [done|]. cbn [fst snd] in *.
  rewrite shape_zeros_like in S1, S2.
  assert (shape (map_ (trck out)) = (nrows (map_ nue), ncols (map_ nue))) as S1'
    by exact S1.
  injection S1' as Hr Hc. rewrite Hr in Hi. rewrite Hc in Hj.
  rewrite (cell_bget (nrows (map_ nue)) (ncols (map_ nue))) by done.
  rewrite (cell_bget (nrows (map_ nue)) (ncols (map_ nue))) by done.
  rewrite C1, C2 by (by rewrite ?nrows_zeros_like, ?ncols_zeros_like).
  by rewrite !bget_zeros_like.
Qed.
End CallAlways.

Lemma output_shape_witness :
  ∃ nue,
    row_events !! "nue_cc" = Some (Template nue) ∧
    shape (map_ (trck row_result)) = shape (map_ nue) ∧
    shape (map_ (cscd row_result)) = shape (map_ nue) ∧
    is_array (map_ (trck row_result)) ∧ is_array (map_ (cscd row_result)).
Proof.
  exact (output_shape (Spec.get_binning Z.eqb) Spec.get_params Spec.add_params
           row_events demo_service ∅ row_result row_events_run).
Defined.

Lemma returned_cells_witness :
  let term sig flav :=
    event_rate row_events flav 1 0 ⊗ pid_at (get_maps demo_service) flav sig 1 0 in
  cell (map_ (trck row_result)) 1 0
    = Some (zero ⊕ term "trck" "nue_cc" ⊕ term "trck" "numu_cc"
                 ⊕ term "trck" "nutau_cc" ⊕ term "trck" "nuall_nc") ∧
  cell (map_ (cscd row_result)) 1 0
    = Some (zero ⊕ term "cscd" "nue_cc" ⊕ term "cscd" "numu_cc"
                 ⊕ term "cscd" "nutau_cc" ⊕ term "cscd" "nuall_nc").
Proof.
  apply (returned_cells (Spec.get_binning Z.eqb) Spec.get_params Spec.add_params
           row_events demo_service ∅ row_result 1 0 row_events_run); cbn; lia.
Defined.

(** ** When the call returns *)

Section Returns.
Context {num pvalue : Type} `{Numeric num}.
Variable get_binning :
  gmap string (entry num pvalue (ndarray num)) → result (list num * list num).
Variable get_params :
  gmap string (entry num pvalue (ndarray num)) →
  PIDService num pvalue (ndarray num) →
  gmap string pvalue → gmap string pvalue.
Variable add_params :
  gmap string pvalue → gmap string pvalue → result (gmap string pvalue).
Implicit Types (reco_events : gmap string (entry num pvalue (ndarray num))).
Implicit Types (pid_dict : gmap string (gmap string (weight num (ndarray num)))).
Implicit Types (acc : ndarray num * ndarray num).





End Returns.




(** ** Why the call raises *)

Section Raises.
Context {num pvalue : Type} `{Numeric num}.
Variable get_binning :
  gmap string (entry num pvalue (ndarray num)) → result (list num * list num).
Variable get_params :
  gmap string (entry num pvalue (ndarray num)) →
  PIDService num pvalue (ndarray num) →
  gmap string pvalue → gmap string pvalue.
Variable add_params :
  gmap string pvalue → gmap string pvalue → result (gmap string pvalue).
Implicit Types (reco_events : gmap string (entry num pvalue (ndarray num))).
Implicit Types (pid_dict : gmap string (gmap string (weight num (ndarray num)))).
Implicit Types (acc : ndarray num * ndarray num).





End Raises.



(** ** Entries of the PID table the loop does not read *)

Section PidEntries.
Context {num pvalue : Type} `{Numeric num}.
Variable get_binning :
  gmap string (entry num pvalue (ndarray num)) → result (list num * list num).
Variable get_params :
  gmap string (entry num pvalue (ndarray num)) →
  PIDService num pvalue (ndarray num) →
  gmap string pvalue → gmap string pvalue.
Variable add_params :
  gmap string pvalue → gmap string pvalue → result (gmap string pvalue).
Implicit Types (reco_events : gmap string (entry num pvalue (ndarray num))).
Implicit Types (pid_dict : gmap string (gmap string (weight num (ndarray num)))).

Lemma pid_loop_weights reco_events pid_dict pid_dict' flavs acc acc' :
  (∀ flav sig, flav ∈ flavs → sig ∈ ["trck"; "cscd"] →
     pid_dict !! flav ≫= (.!! sig) = pid_dict' !! flav ≫= (.!! sig)) →
  pid_loop reco_events pid_dict flavs acc = Ok acc' →
  pid_loop reco_events pid_dict' flavs acc = Ok acc'.
Proof.
  revert acc. induction flavs as [|flav rest IH]; intros acc Hagree; [done|].
  simpl. intros (acc1 & Hstep & Hloop)%bind_Ok.
  apply pid_step_Ok in Hstep
    as (ev & wt & wc & m1 & m2 & Hev & Hwt & Hm1 & Hwc & Hm2 & Ht & Hc).
  apply pid_weight_Ok in Hwt, Hwc.
  rewrite Hagree in Hwt by (by left). rewrite Hagree in Hwc by (by left || by right; left).
  apply bind_Ok. exists acc1. split.
  - apply pid_step_Ok. exists ev, wt, wc, m1, m2.
    by rewrite !pid_weight_Ok.
  - apply IH; [|done]. intros f sig Hf. apply Hagree. by right.
Qed.

(** X6 (other entries of the PID table).  The call reads the PID table
    only at the weights 'trck' and 'cscd' of the four categories: two tables
    that agree there (and give the parameter helper the same answer) lead to
    the same results. *)
Theorem pid_entries_ignored reco_events
    (pid_service pid_service' : PIDService num pvalue (ndarray num))
    (kwargs : gmap string pvalue) :
  (∀ flav sig, flav ∈ flavours → sig ∈ ["trck"; "cscd"] →
     get_maps pid_service !! flav ≫= (.!! sig)
     = get_maps pid_service' !! flav ≫= (.!! sig)) →
  get_params reco_events pid_service kwargs
    = get_params reco_events pid_service' kwargs →
  ∀ out,
    get_pid_maps get_binning get_params add_params reco_events pid_service kwargs
      = Ok out ↔
    get_pid_maps get_binning get_params add_params reco_events pid_service' kwargs
      = Ok out.
Proof.
  intros Hagree Hparams out. rewrite !get_pid_maps_Ok. rewrite Hparams.
  split; intros (bins & nue & p & merged & maps & Hb & Hn & Hp & Hm & Hloop & ->);
    exists bins, nue, p, merged, maps; repeat (split; [done|]);
    (split; [|done]).
  - by eapply pid_loop_weights.
  - eapply pid_loop_weights; [|done]. intros f sig Hf Hsig. symmetry. by apply Hagree.
Qed.
End PidEntries.

Lemma demo_service_extra_agree flav sig :
  flav ∈ flavours → sig ∈ ["trck"; "cscd"] →
  get_maps demo_service !! flav ≫= (.!! sig)
  = get_maps demo_service_extra !! flav ≫= (.!! sig).
Proof.
  intros Hf Hsig. each_flavour Hf;
    (repeat (apply elem_of_cons in Hsig as [->|Hsig]);
     [vm_compute; reflexivity..|by apply elem_of_nil in Hsig]).
Defined.

Lemma pid_entries_ignored_witness :
  split Z.eqb demo_events demo_service ∅ = Ok demo_result ↔
  split Z.eqb demo_events demo_service_extra ∅ = Ok demo_result.
Proof.
  apply (pid_entries_ignored (Spec.get_binning Z.eqb) Spec.get_params
           Spec.add_params demo_events demo_service demo_service_extra ∅
           demo_service_extra_agree).
  vm_compute. reflexivity.
Defined.

(** ** Sums of inputs *)

Section Superposition.
Context {num pvalue : Type} `{ExactArith num}.
Variable get_binning :
  gmap string (entry num pvalue (ndarray num)) → result (list num * list num).
Variable get_params :
  gmap string (entry num pvalue (ndarray num)) →
  PIDService num pvalue (ndarray num) →
  gmap string pvalue → gmap string pvalue.
Variable add_params :
  gmap string pvalue → gmap string pvalue → result (gmap string pvalue).
Implicit Types (reco_events : gmap string (entry num pvalue (ndarray num))).
Implicit Types (pid_dict : gmap string (gmap string (weight num (ndarray num)))).

Lemma mul_add_distr_r (x y z : num) : (x ⊕ y) ⊗ z = (x ⊗ z) ⊕ (y ⊗ z).
Proof. by rewrite mul_comm, mul_add_distr_l, !(mul_comm z). Qed.

Lemma accumulated_add reco_events1 reco_events2 reco_events12 pid_dict
    sig flavs (s1 s2 : num) i j :
  (∀ flav, flav ∈ flavs →
     event_rate reco_events12 flav i j
     = event_rate reco_events1 flav i j ⊕ event_rate reco_events2 flav i j) →
  accumulated reco_events12 pid_dict sig flavs (s1 ⊕ s2) i j
  = accumulated reco_events1 pid_dict sig flavs s1 i j
    ⊕ accumulated reco_events2 pid_dict sig flavs s2 i j.
Proof.
  revert s1 s2. induction flavs as [|flav rest IH]; intros s1 s2 Hsum; [done|].
  unfold accumulated in *. simpl.
  rewrite <- IH by (intros f Hf; apply Hsum; by right). f_equal.
  rewrite Hsum by (by left). by rewrite mul_add_distr_r, add_interchange.
Qed.

(** The cells of a result, as the loop accumulates them. *)
Lemma get_pid_maps_cells reco_events
    (pid_service : PIDService num pvalue (ndarray num))
    (kwargs : gmap string pvalue) out i j :
  get_pid_maps get_binning get_params add_params reco_events pid_service kwargs
    = Ok out →
  i < nrows (map_ (trck out)) → j < ncols (map_ (trck out)) →
  cell (map_ (trck out)) i j
    = Some (accumulated reco_events (get_maps pid_service) "trck" flavours zero i j) ∧
  cell (map_ (cscd out)) i j
    = Some (accumulated reco_events (get_maps pid_service) "cscd" flavours zero i j).
Proof.
  intros (nue & Hl & Hloop)%get_pid_maps_Ok_loop Hi Hj.
  apply pid_loop_cells in Hloop as (S1 & S2 & Harr & C1 & C2).
  destruct Harr as [A1 A2]; [done|]. cbn [fst snd] in *.
  rewrite shape_zeros_like in S1, S2.
  assert (shape (map_ (trck out)) = (nrows (map_ nue), ncols (map_ nue))) as S1'
    by exact S1.
  injection S1' as Hr Hc. rewrite Hr in Hi. rewrite Hc in Hj.
  rewrite (cell_bget (nrows (map_ nue)) (ncols (map_ nue))) by done.
  rewrite (cell_bget (nrows (map_ nue)) (ncols (map_ nue))) by done.
  rewrite C1, C2 by (by rewrite ?nrows_zeros_like, ?ncols_zeros_like).
  by rewrite !bget_zeros_like.
Qed.

(** X7 (superposition).  Take three inputs on which the call returns maps
    of one shape, with the same PID table.  In every cell where the event
    rates of the third input are, category by category, the sums of those
    of the first two, the trck and cscd values of the third result are the
    sums of those of the first two results.  Arithmetic is exact. *)
Theorem superposition reco_events1 reco_events2 reco_events12
    (pid_service : PIDService num pvalue (ndarray num))
    (kwargs : gmap string pvalue) out1 out2 out12 i j :
  get_pid_maps get_binning get_params add_params reco_events1 pid_service kwargs
    = Ok out1 →
  get_pid_maps get_binning get_params add_params reco_events2 pid_service kwargs
    = Ok out2 →
  get_pid_maps get_binning get_params add_params reco_events12 pid_service kwargs
    = Ok out12 →
  shape (map_ (trck out1)) = shape (map_ (trck out12)) →
  shape (map_ (trck out2)) = shape (map_ (trck out12)) →
  i < nrows (map_ (trck out12)) → j < ncols (map_ (trck out12)) →
  (∀ flav, flav ∈ flavours →
     event_rate reco_events12 flav i j
     = event_rate reco_events1 flav i j ⊕ event_rate reco_events2 flav i j) →
  ∃ t1 t2 c1 c2,
    cell (map_ (trck out1)) i j = Some t1 ∧ cell (map_ (trck out2)) i j = Some t2 ∧
    cell (map_ (trck out12)) i j = Some (t1 ⊕ t2) ∧
    cell (map_ (cscd out1)) i j = Some c1 ∧ cell (map_ (cscd out2)) i j = Some c2 ∧
    cell (map_ (cscd out12)) i j = Some (c1 ⊕ c2).
Proof.
  intros Hcall1 Hcall2 Hcall12 [= Hr1 Hc1] [= Hr2 Hc2] Hi Hj Hsum.
  destruct (get_pid_maps_cells _ _ _ _ i j Hcall1) as [Ht1 Hs1]; [lia..|].
  destruct (get_pid_maps_cells _ _ _ _ i j Hcall2) as [Ht2 Hs2]; [lia..|].
  destruct (get_pid_maps_cells _ _ _ _ i j Hcall12) as [Ht12 Hs12]; [lia..|].
  eexists _, _, _, _.
  split; [exact Ht1|]. split; [exact Ht2|].
  split; [|split; [exact Hs1|split; [exact Hs2|]]].
  - rewrite Ht12. f_equal. rewrite <- (add_zero_l zero) at 1.
    by apply accumulated_add.
  - rewrite Hs12. f_equal. rewrite <- (add_zero_l zero) at 1.
    by apply accumulated_add.
Qed.
End Superposition.

Lemma demo_events_sum_rates flav :
  flav ∈ flavours →
  event_rate demo_events_sum flav 1 1
  = event_rate demo_events flav 1 1 ⊕ event_rate demo_events_b flav 1 1.
Proof. intros Hf. each_flavour Hf; vm_compute; reflexivity. Defined.

Lemma superposition_witness :
  ∃ t1 t2 c1 c2,
    cell (map_ (trck demo_result)) 1 1 = Some t1 ∧
    cell (map_ (trck demo_result_b)) 1 1 = Some t2 ∧
    cell (map_ (trck demo_result_sum)) 1 1 = Some (t1 ⊕ t2) ∧
    cell (map_ (cscd demo_result)) 1 1 = Some c1 ∧
    cell (map_ (cscd demo_result_b)) 1 1 = Some c2 ∧
    cell (map_ (cscd demo_result_sum)) 1 1 = Some (c1 ⊕ c2).
Proof.
  apply (superposition (Spec.get_binning Z.eqb) Spec.get_params Spec.add_params
           demo_events demo_events_b demo_events_sum demo_service ∅
           demo_result demo_result_b demo_result_sum 1 1
           demo_events_run demo_events_b_run demo_events_sum_run);
    [reflexivity|reflexivity|cbn; lia|cbn; lia|exact demo_events_sum_rates].
Defined.

(** * Binary64 *)

(** ** Zero input *)

Section ZeroInput.
Context {num pvalue : Type} `{Numeric num}.
Variable get_binning :
  gmap string (entry num pvalue (ndarray num)) → result (list num * list num).
Variable get_params :
  gmap string (entry num pvalue (ndarray num)) →
  PIDService num pvalue (ndarray num) →
  gmap string pvalue → gmap string pvalue.
Variable add_params :
  gmap string pvalue → gmap string pvalue → result (gmap string pvalue).
Implicit Types (reco_events : gmap string (entry num pvalue (ndarray num))).
Implicit Types (pid_dict : gmap string (gmap string (weight num (ndarray num)))).

Lemma all_zero_cells (a : ndarray num) :
  is_array a → (∀ i j, i < nrows a → j < ncols a → bget a i j = zero) →
  all_zero a.
Proof.
  intros Harr Hcells. unfold all_zero. apply Forall_lookup. intros i row Hrow.
  apply Forall_lookup. intros j v Hv.
  assert (length row = ncols a) as Hlen
    by (eapply (proj1 (Forall_forall _ _) Harr), list_elem_of_lookup_2, Hrow).
  pose proof (lookup_lt_Some _ _ _ Hrow) as Hi.
  pose proof (lookup_lt_Some _ _ _ Hv) as Hj. rewrite Hlen in Hj.
  pose proof (cell_bget (nrows a) (ncols a) a i j (conj Harr eq_refl) Hi Hj) as Hc.
  unfold cell in Hc. rewrite Hrow in Hc. simpl in Hc. rewrite Hv in Hc.
  injection Hc as ->. by apply Hcells.
Qed.

Lemma pid_loop_zero reco_events pid_dict flavs acc acc' :
  (∀ flav t, flav ∈ flavs →
     reco_events !! flav = Some (Template t) → all_zero (map_ t)) →
  (∀ flav sig w i j, flav ∈ flavs → sig ∈ ["trck"; "cscd"] →
     pid_dict !! flav ≫= (.!! sig) = Some w →
     zero ⊕ zero ⊗ weight_at w i j = zero) →
  all_zero acc.1 → all_zero acc.2 →
  pid_loop reco_events pid_dict flavs acc = Ok acc' →
  all_zero acc'.1 ∧ all_zero acc'.2.
Proof.
  revert acc. induction flavs as [|flav rest IH]; intros acc Hre Hw Ht Hc Hloop.
  { simpl in Hloop. by injection Hloop as <-. }
  simpl in Hloop. apply bind_Ok in Hloop as (acc1 & Hstep & Hloop).
  pose proof (pid_step_cells _ _ _ _ _ Hstep) as ([S1 A1] & [S2 A2] & C1 & C2).
  apply pid_step_Ok in Hstep
    as (ev & wt & wc & m1 & m2 & Hev & Hwt & _ & Hwc & _).
  apply reco_map_Ok in Hev as (t & Hl & ->). apply pid_weight_Ok in Hwt, Hwc.
  assert (all_zero (map_ t)) as Hz by (eapply Hre; [by left|done]).
  injection S1 as R1 L1. injection S2 as R2 L2.
  apply (IH acc1); [| | | |done].
  - intros f t' Hf. apply Hre. by right.
  - intros f sig w i j Hf. apply Hw. by right.
  - apply all_zero_cells; [done|]. intros i j Hi Hj.
    rewrite C1 by lia.
    rewrite (event_rate_Template _ _ _ _ _ Hl), (pid_at_weight _ _ _ _ _ _ Hwt).
    rewrite !all_zero_bget by done. eapply Hw; [by left| |done]. by left.
  - apply all_zero_cells; [done|]. intros i j Hi Hj.
    rewrite C2 by lia.
    rewrite (event_rate_Template _ _ _ _ _ Hl), (pid_at_weight _ _ _ _ _ _ Hwc).
    rewrite !all_zero_bget by done. eapply Hw; [by left| |done]. right. by left.
Qed.

(** C8, as amended (zero-input identity).  If the map of every category is
    all-zero, then for every PID table whose weights w all satisfy
    0 + 0*w = 0 (every finite binary64 number does, an infinity or a NaN
    does not), the maps of a returned result are all-zero; and on a valid
    input the call does return.  No law of arithmetic is assumed. *)
Theorem zero_input r c reco_events
    (pid_service : PIDService num pvalue (ndarray num))
    (kwargs : gmap string pvalue) :
  (∀ flav t, flav ∈ flavours →
     reco_events !! flav = Some (Template t) → all_zero (map_ t)) →
  (∀ flav sig w i j, flav ∈ flavours → sig ∈ ["trck"; "cscd"] →
     get_maps pid_service !! flav ≫= (.!! sig) = Some w →
     zero ⊕ zero ⊗ weight_at w i j = zero) →
  (valid_input get_binning get_params add_params r c reco_events pid_service kwargs →
   is_Ok (get_pid_maps get_binning get_params add_params
            reco_events pid_service kwargs)) ∧
  ∀ out,
    get_pid_maps get_binning get_params add_params reco_events pid_service kwargs
      = Ok out →
    all_zero (map_ (trck out)) ∧ all_zero (map_ (cscd out)).
Proof.
  intros Hzero Hweights. split.
  - intros Hvalid.
    destruct (get_pid_maps_valid _ _ _ _ _ _ _ _ Hvalid) as (out & _ & Hcall & _).
    by exists out.
  - intros out Hcall.
    apply get_pid_maps_Ok in Hcall
      as (bins & nue & p & merged & maps & _ & _ & _ & _ & Hloop & ->).
    simpl. eapply pid_loop_zero; [exact Hzero|exact Hweights| | |exact Hloop];
      apply all_zero_zeros_like.
Qed.
End ZeroInput.

Lemma float_events_valid x :
  valid_input (Spec.get_binning PrimFloat.eqb) Spec.get_params Spec.add_params
    1 1 (float_events x) (scenario_service ∅) ∅.
Proof.
  split.
  - eexists. vm_compute. reflexivity.
  - intros flav Hf. each_flavour Hf;
      (eexists; split; [vm_compute; reflexivity|]);
      (split; [by repeat constructor|reflexivity]).
  - eexists. split; [vm_compute; reflexivity|]. eexists. reflexivity.
  - intros flav Hf. each_flavour Hf;
      (eexists _, _, _; split; [vm_compute; reflexivity|]);
      (split; [vm_compute; reflexivity|]); (split; [vm_compute; reflexivity|]);
      (split; vm_compute; done).
Defined.

Lemma float_events_all_zero flav t :
  flav ∈ flavours → float_events 0 !! flav = Some (Template t) → all_zero (map_ t).
Proof.
  intros Hf. each_flavour Hf; vm_compute; intros [= <-]; by repeat constructor.
Defined.

Lemma scenario_service_absorbs flav sig (w : weight float (ndarray float)) i j :
  flav ∈ flavours → sig ∈ ["trck"; "cscd"] →
  get_maps (scenario_service (∅ : gmap string Z)) !! flav ≫= (.!! sig) = Some w →
  zero ⊕ zero ⊗ weight_at w i j = zero.
Proof.
  intros Hf Hsig. each_flavour Hf;
    (repeat (apply elem_of_cons in Hsig as [->|Hsig]);
     [vm_compute; intros [= <-]; vm_compute; reflexivity..
     |by apply elem_of_nil in Hsig]).
Defined.

Lemma zero_input_witness :
  is_Ok (split PrimFloat.eqb (float_events 0) (scenario_service ∅) ∅) ∧
  ∀ out,
    split PrimFloat.eqb (float_events 0) (scenario_service ∅) ∅ = Ok out →
    all_zero (map_ (trck out)) ∧ all_zero (map_ (cscd out)).
Proof.
  destruct (zero_input (Spec.get_binning PrimFloat.eqb) Spec.get_params
              Spec.add_params 1 1 (float_events 0) (scenario_service ∅) ∅
              float_events_all_zero scenario_service_absorbs) as [Hret Hzero].
  split; [exact (Hret (float_events_valid 0))|exact Hzero].
Defined.

(** C8, as stated, fails in binary64: the maps are all-zero, the track
    weights are infinite, and 0 * inf is a NaN. *)
Lemma zero_input_counterexample :
  (∀ flav t, flav ∈ flavours →
     float_events 0 !! flav = Some (Template t) → all_zero (map_ t)) ∧
  ∃ out,
    split PrimFloat.eqb (float_events 0) inf_service ∅ = Ok out ∧
    ¬ all_zero (map_ (trck out)).
Proof.
  split; [exact float_events_all_zero|].
  eexists. split; [vm_compute; reflexivity|].
  cbn [trck map_]. intros Hzero.
  apply Forall_cons in Hzero as [Hrow _]. apply Forall_cons in Hrow as [Hx _].
  apply (f_equal PrimFloat.is_nan) in Hx. vm_compute in Hx. discriminate.
Qed.

(** ** Rounding *)


